(** * iot-driver-copilot: connection buffering, telemetry cache, phase reconciliation

    A shallow embedding of the three drivers of the repository

      - [src/iot_driver_copilot/usb_camera/driver.cpp]          (module [UsbCamera])
      - [src/iot_driver_copilot/wheeltec_ros_2_wheeltec.../driver.cpp] (module [Ros2Driver])
      - [src/iot_driver_copilot/wheeltec_ros_robot/driver.cpp]  (module [RosRobot])

    and the properties of the specification that concern them.  External
    collaborators (the MQTT client, the ROS publisher, the control-plane HTTP
    call, the JSON text parsers) are represented by the calls the drivers make
    on them, recorded in logs, and by oracles for what those calls return. *)

From Stdlib Require Import ZArith Ascii PrimFloat FloatOps SpecFloat.
From stdpp Require Import gmap strings list fin_maps.

Local Open Scope string_scope.
Local Open Scope Z_scope.
Local Open Scope list_scope.

(** ** JSON documents

    Both JSON libraries used by the drivers (jsoncpp's [Json::Value] and
    [nlohmann::json]) keep objects in a [std::map] keyed by member name, so an
    object is a finite map and two objects with the same members are equal. *)

#[warnings="-register-all"]
Inductive Json : Type :=
| JNull
| JBool (b : bool)
| JInt (z : Z)
| JUInt (n : Z)
| JReal (d : float)
| JString (s : string)
| JArray (items : list Json)
| JObject (members : gmap string Json).

(** [operator[]] chains such as [root["a"]["b"] = v]: a null node turns into an
    object on member access, an object gets the member created or replaced, any
    other kind of node makes the library raise (result [None]).  The function
    [f] is applied to the node at the end of the path. *)
Fixpoint alter_path (f : Json → option Json) (path : list string) (j : Json)
  : option Json :=
  match path with
  | [] => f j
  | k :: rest =>
      match j with
      | JNull =>
          child ← alter_path f rest JNull; Some (JObject {[ k := child ]})
      | JObject o =>
          child ← alter_path f rest (default JNull (o !! k));
          Some (JObject (<[ k := child ]> o))
      | _ => None
      end
  end.

Definition set_path (path : list string) (v : Json) : Json → option Json :=
  alter_path (λ _, Some v) path.

(** [Json::Value::append]: null becomes a one-element array, an array grows at
    its end. *)
Definition json_append (v : Json) (node : Json) : option Json :=
  match node with
  | JNull => Some (JArray [v])
  | JArray l => Some (JArray (l ++ [v]))
  | _ => None
  end.

Definition append_path (path : list string) (v : Json) : Json → option Json :=
  alter_path (json_append v) path.

(** One statement on a document under construction: [root[p1]...[pn] = v] or
    [root[p1]...[pn].append(v)]. *)
Inductive Assign : Type :=
| ASet (path : list string) (v : Json)
| AAppend (path : list string) (v : Json).

Definition apply_assign (a : Assign) (root : Json) : option Json :=
  match a with
  | ASet p v => set_path p v root
  | AAppend p v => append_path p v root
  end.

(** Statements one after the other; [None] as soon as the library raises. *)
Definition apply_all (l : list Assign) (root : option Json) : option Json :=
  foldl (λ acc a, acc ≫= apply_assign a) root l.

(** [Json::Value::isMember(key)] of jsoncpp: defined on objects and on null
    (which has no member); on any other kind the library raises ([None]). *)
Definition isMember (key : string) (j : Json) : option bool :=
  match j with
  | JNull => Some false
  | JObject o => Some (bool_decide (is_Some (o !! key)))
  | _ => None
  end.

(** [static_cast<double>] of an integer: the nearest double. *)
Definition int_to_double (z : Z) : float :=
  SF2Prim (binary_normalize prec emax z 0 false).

(** [Json::Value::asDouble()] of jsoncpp: numbers, booleans and null convert,
    anything else raises ([None]). *)
Definition asDouble (j : Json) : option float :=
  match j with
  | JInt z => Some (int_to_double z)
  | JUInt n => Some (int_to_double n)
  | JReal d => Some d
  | JNull => Some 0%float
  | JBool b => Some (if b then 1%float else 0%float)
  | _ => None
  end.

(** [value[key]] on a non-const [Json::Value]: the member, created as null
    when absent; raises on kinds other than object and null. *)
Definition member_or_null (key : string) (j : Json) : option Json :=
  match j with
  | JNull => Some JNull
  | JObject o => Some (default JNull (o !! key))
  | _ => None
  end.

(** How a call into library or driver code ends. *)
Inductive Outcome : Type := Returned | Threw.

(** * The USB camera MQTT driver *)

Module UsbCamera.

Definition TOPIC_VIDEO_STREAM : string := "device/telemetry/video_stream".
Definition TOPIC_AUDIO_STREAM : string := "device/telemetry/audio_stream".
Definition TOPIC_CMD_START_CAPTURE : string := "device/commands/start_capture".
Definition TOPIC_CMD_STOP_CAPTURE : string := "device/commands/stop_capture".
Definition TOPIC_CMD_ADJUST_RESOLUTION : string := "device/commands/adjust_resolution".
Definition TOPIC_CMD_ADJUST_BRIGHTNESS : string := "device/commands/adjust_brightness".
Definition TOPIC_CMD_ADJUST_CONTRAST : string := "device/commands/adjust_contrast".

Definition QOS_1 : Z := 1.

(** The calls the driver makes on [mqtt::async_client cli] that reach the
    broker: [cli.subscribe(topic, qos)] and [cli.publish(msg)] with
    [msg = make_message(topic, payload, qos, retained)]. *)
Inductive ClientCall : Type :=
| CliSubscribe (topic : string) (qos : Z)
| CliPublish (topic payload : string) (qos : Z) (retained : bool).

Definition is_subscribe (c : ClientCall) : bool :=
  match c with CliSubscribe _ _ => true | CliPublish _ _ _ _ => false end.

Definition is_publish (c : ClientCall) : bool := negb (is_subscribe c).

Section Driver.

(** User handlers ([std::function<void(const std::string&)>]). *)
Variable Handler : Type.
(** [Json::writeString(writer, payload)]. *)
Variable writeString : Json → string.
(** Whether [token->wait()] returns ([true]) or throws ([false]) for a call,
    given the calls made on the client before it. *)
Variable wait_ok : list ClientCall → ClientCall → bool.

(** The fields of [USBCameraMQTTDriver] that the operations read and write;
    [cli_log] is the sequence of calls made on [cli] so far. *)
Record Driver : Type := mkDriver {
  connected : bool;
  handlers : gmap string Handler;
  pending_subs : list (string * Z);
  cli_log : list ClientCall
}.

(** The constructor's member initialisers: [connected(false)], empty maps. *)
Definition new_driver : Driver :=
  {| connected := false; handlers := ∅; pending_subs := []; cli_log := [] |}.

Definition set_connected (b : bool) (d : Driver) : Driver :=
  {| connected := b; handlers := handlers d;
     pending_subs := pending_subs d; cli_log := cli_log d |}.

Definition set_handlers (h : gmap string Handler) (d : Driver) : Driver :=
  {| connected := connected d; handlers := h;
     pending_subs := pending_subs d; cli_log := cli_log d |}.

Definition set_pending_subs (p : list (string * Z)) (d : Driver) : Driver :=
  {| connected := connected d; handlers := handlers d;
     pending_subs := p; cli_log := cli_log d |}.

(** [cli.f(...)->wait()]: the call is handed to the client, then the wait
    either returns or throws. *)
Definition cli_call (c : ClientCall) (d : Driver) : Outcome * Driver :=
  (if wait_ok (cli_log d) c then Returned else Threw,
   {| connected := connected d; handlers := handlers d;
      pending_subs := pending_subs d; cli_log := cli_log d ++ [c] |}).

(** [subscribeTopic]: the handler is registered first (last registration
    wins), then the subscription is sent or queued. *)
Definition subscribeTopic (topic : string) (qos : Z) (userHandler : Handler)
    (d : Driver) : Outcome * Driver :=
  let d1 := set_handlers (<[ topic := userHandler ]> (handlers d)) d in
  if connected d1 then cli_call (CliSubscribe topic qos) d1
  else (Returned, set_pending_subs (pending_subs d1 ++ [(topic, qos)]) d1).

(** [publishCommand]: serialise, build the message, publish and wait. *)
Definition publishCommand (topic : string) (payload : Json) (d : Driver)
  : Outcome * Driver :=
  let payloadStr := writeString payload in
  cli_call (CliPublish topic payloadStr QOS_1 false) d.

(** The [for] loop of the connected handler over [pending_subs]: a throwing
    wait leaves the loop (and the handler). *)
Fixpoint replay_subs (subs : list (string * Z)) (d : Driver) : Outcome * Driver :=
  match subs with
  | [] => (Returned, d)
  | sub :: rest =>
      match cli_call (CliSubscribe sub.1 sub.2) d with
      | (Returned, d') => replay_subs rest d'
      | (Threw, d') => (Threw, d')
      end
  end.

(** The lambda given to [cli.set_connected_handler]. *)
Definition connected_handler (d : Driver) : Outcome * Driver :=
  let d1 := set_connected true d in
  match replay_subs (pending_subs d1) d1 with
  | (Returned, d2) => (Returned, set_pending_subs [] d2)
  | (Threw, d2) => (Threw, d2)
  end.

(** The lambda given to [cli.set_connection_lost_handler]. *)
Definition connection_lost_handler (d : Driver) : Driver :=
  set_connected false d.

(** The user-facing API methods. *)
Definition subscribeVideoStream (h : Handler) : Driver → Outcome * Driver :=
  subscribeTopic TOPIC_VIDEO_STREAM QOS_1 h.
Definition subscribeAudioStream (h : Handler) : Driver → Outcome * Driver :=
  subscribeTopic TOPIC_AUDIO_STREAM QOS_1 h.
Definition startCapture (params : Json) : Driver → Outcome * Driver :=
  publishCommand TOPIC_CMD_START_CAPTURE params.
Definition stopCapture : Driver → Outcome * Driver :=
  publishCommand TOPIC_CMD_STOP_CAPTURE JNull.
Definition adjustResolution (width height : Z) : Driver → Outcome * Driver :=
  publishCommand TOPIC_CMD_ADJUST_RESOLUTION
    (JObject (<[ "height" := JInt height ]> (<[ "width" := JInt width ]> ∅))).
Definition adjustBrightness (brightness : Z) : Driver → Outcome * Driver :=
  publishCommand TOPIC_CMD_ADJUST_BRIGHTNESS (JObject {[ "brightness" := JInt brightness ]}).
Definition adjustContrast (contrast : Z) : Driver → Outcome * Driver :=
  publishCommand TOPIC_CMD_ADJUST_CONTRAST (JObject {[ "contrast" := JInt contrast ]}).

(** Subscribe calls issued one after the other; an exception goes to the
    caller of that one call and the driver object lives on. *)
Definition subscribe_all (subs : list (string * Z * Handler)) (d : Driver) : Driver :=
  foldl (λ acc s, (subscribeTopic s.1.1 s.1.2 s.2 acc).2) d subs.

(** The calls an operation adds to the client's log. *)
Definition calls_since (before after : Driver) : list ClientCall :=
  drop (length (cli_log before)) (cli_log after).

End Driver.

Arguments connected {Handler} _.
Arguments handlers {Handler} _.
Arguments pending_subs {Handler} _.
Arguments cli_log {Handler} _.
Arguments calls_since {Handler} _ _.
Arguments connection_lost_handler {Handler} _.
Arguments connected_handler {Handler} _ _.
Arguments replay_subs {Handler} _ _ _.
Arguments cli_call {Handler} _ _ _.
Arguments subscribeTopic {Handler} _ _ _ _ _.
Arguments publishCommand {Handler} _ _ _ _ _.
Arguments subscribe_all {Handler} _ _ _.

(** The client call a queued subscription turns into on replay. *)
Definition sub_call (sub : string * Z) : ClientCall := CliSubscribe sub.1 sub.2.

Section Facts.

Context {Handler : Type}.
Variable writeString : Json → string.
Variable wait_ok : list ClientCall → ClientCall → bool.

Implicit Types (d : Driver Handler) (subs : list (string * Z)).

Lemma calls_since_app d d' (l : list ClientCall) :
  cli_log d' = cli_log d ++ l → calls_since d d' = l.
Proof. unfold calls_since. intros ->. apply drop_app_length. Qed.

(** Whatever the waits do, a replay issues a prefix of the queue, in queue
    order, and touches no other field. *)
Lemma replay_subs_prefix subs d :
  ∃ k, cli_log (replay_subs wait_ok subs d).2
         = cli_log d ++ map sub_call (take k subs) ∧
       connected (replay_subs wait_ok subs d).2 = connected d ∧
       pending_subs (replay_subs wait_ok subs d).2 = pending_subs d ∧
       handlers (replay_subs wait_ok subs d).2 = handlers d.
Proof.
  revert d. induction subs as [|sub rest IH]; intros d.
  - exists 0%nat. simpl. by rewrite app_nil_r.
  - simpl.
    destruct (wait_ok (cli_log d) (CliSubscribe sub.1 sub.2)) eqn:Hw.
    + destruct (IH {| connected := connected d; handlers := handlers d;
                      pending_subs := pending_subs d;
                      cli_log := cli_log d ++ [CliSubscribe sub.1 sub.2] |})
        as (k & Hlog & Hc & Hp & Hh).
      exists (S k). simpl in *. rewrite Hlog, <- app_assoc. done.
    + exists 1%nat. simpl. by destruct rest.
Qed.

(** When every subscribe is acknowledged the whole queue is replayed. *)
Lemma replay_subs_all subs d :
  (∀ log t q, wait_ok log (CliSubscribe t q) = true) →
  replay_subs wait_ok subs d
  = (Returned, {| connected := connected d; handlers := handlers d;
                  pending_subs := pending_subs d;
                  cli_log := cli_log d ++ map sub_call subs |}).
Proof.
  intros Hack. revert d. induction subs as [|sub rest IH]; intros d.
  - simpl. rewrite app_nil_r. by destruct d.
  - simpl. unfold cli_call. rewrite Hack, IH. simpl.
    by rewrite <- app_assoc.
Qed.

(** Subscribing while disconnected only registers the handler and queues. *)
Lemma subscribeTopic_disconnected (t : string) (q : Z) (h : Handler) d :
  connected d = false →
  subscribeTopic wait_ok t q h d
  = (Returned, {| connected := false; handlers := <[t:=h]> (handlers d);
                  pending_subs := pending_subs d ++ [(t, q)];
                  cli_log := cli_log d |}).
Proof.
  intros Hd. unfold subscribeTopic. simpl. rewrite Hd.
  unfold set_pending_subs, set_handlers. simpl. by rewrite Hd.
Qed.

Lemma subscribe_all_disconnected (l : list (string * Z * Handler)) d :
  connected d = false →
  connected (subscribe_all wait_ok l d) = false ∧
  cli_log (subscribe_all wait_ok l d) = cli_log d ∧
  pending_subs (subscribe_all wait_ok l d) = pending_subs d ++ map fst l.
Proof.
  revert d. induction l as [|[[t q] h] l IH]; intros d Hd.
  - simpl. by rewrite app_nil_r.
  - unfold subscribe_all in *. simpl.
    rewrite (subscribeTopic_disconnected t q h d Hd). simpl.
    edestruct IH as (Hc & Hl & Hp); [|rewrite Hc, Hl, Hp]; [done|].
    simpl. by rewrite <- app_assoc.
Qed.

(** C3.  Subscribe calls issued while the driver is disconnected reach the
    client only through the connected handler: no client call is made when
    they are issued; on the next connect, with the broker acknowledging the
    subscriptions, the handler issues one subscribe per queued entry, in the
    order the calls were made (after what was queued before them), and then
    empties the queue, so that a later connection cycle replays none of them
    again. *)
Theorem C3_buffered_subscriptions_replayed_fifo
    (l : list (string * Z * Handler)) d :
  (∀ log t q, wait_ok log (CliSubscribe t q) = true) →
  connected d = false →
  let d1 := subscribe_all wait_ok l d in
  let r := connected_handler wait_ok d1 in
  calls_since d d1 = [] ∧
  r.1 = Returned ∧
  calls_since d1 r.2 = map sub_call (pending_subs d ++ map fst l) ∧
  pending_subs r.2 = [] ∧
  connected r.2 = true ∧
  calls_since r.2 (connected_handler wait_ok (connection_lost_handler r.2)).2 = [].
Proof.
  intros Hack Hd d1 r.
  destruct (subscribe_all_disconnected l d Hd) as (Hc & Hl & Hp).
  fold d1 in Hc, Hl, Hp.
  assert (Hr : r = (Returned,
            {| connected := true; handlers := handlers d1; pending_subs := [];
               cli_log := cli_log d1 ++ map sub_call (pending_subs d1) |})).
  { unfold r, connected_handler. simpl. by rewrite replay_subs_all. }
  rewrite Hr. simpl. repeat split.
  - apply calls_since_app. by rewrite Hl, app_nil_r.
  - apply calls_since_app. simpl. by rewrite Hp.
  - apply calls_since_app. simpl. by rewrite app_nil_r.
Qed.

(** The connected handler makes subscribe calls only. *)
Lemma connected_handler_only_subscribes d c :
  c ∈ calls_since d (connected_handler wait_ok d).2 → is_subscribe c = true.
Proof.
  unfold connected_handler.
  destruct (replay_subs_prefix (pending_subs (set_connected Handler true d))
              (set_connected Handler true d)) as (k & Hlog & _).
  destruct (replay_subs wait_ok _ _) as [[] d2] eqn:E; simpl in *;
    (erewrite calls_since_app by exact Hlog);
    intros (sub & -> & _)%list_elem_of_fmap; done.
Qed.

(** C1 (as the code has it).  A publish is never queued: in every connection
    state [publishCommand] hands exactly one publish (QoS 1, not retained,
    the serialised payload) to the client at once, and leaves the connection
    flag, the handler table and the pending queue as they were; it returns
    normally exactly when the client's wait does.  The pending queue holds
    subscriptions only, so the calls a following connect makes are subscribe
    calls, never the publish. *)
Theorem C1_publish_sent_at_once_never_queued d (topic : string) (payload : Json) :
  let call := CliPublish topic (writeString payload) QOS_1 false in
  let r := publishCommand writeString wait_ok topic payload d in
  calls_since d r.2 = [call] ∧
  pending_subs r.2 = pending_subs d ∧
  connected r.2 = connected d ∧
  handlers r.2 = handlers d ∧
  (r.1 = Returned ↔ wait_ok (cli_log d) call = true) ∧
  (∀ c, c ∈ calls_since r.2 (connected_handler wait_ok r.2).2 → is_publish c = false).
Proof.
  intros call r. unfold r, publishCommand, cli_call. simpl. fold call.
  split; [by apply calls_since_app|]. do 3 (split; [done|]). split.
  - by destruct (wait_ok (cli_log d) call).
  - intros c Hc. apply connected_handler_only_subscribes in Hc.
    unfold is_publish. by rewrite Hc.
Qed.

End Facts.

(** C3, at a concrete run: two subscriptions queued on a fresh driver. *)
Lemma C3_witness :
  let wait : list ClientCall → ClientCall → bool := λ _ _, true in
  let d1 := subscribe_all wait [("a", 1, 7%nat); ("b", 0, 8%nat)] (new_driver nat) in
  let r := connected_handler wait d1 in
  calls_since (new_driver nat) d1 = [] ∧
  r.1 = Returned ∧
  calls_since d1 r.2 = [CliSubscribe "a" 1; CliSubscribe "b" 0] ∧
  pending_subs r.2 = [] ∧
  connected r.2 = true ∧
  calls_since r.2 (connected_handler wait (connection_lost_handler r.2)).2 = [].
Proof.
  apply (C3_buffered_subscriptions_replayed_fifo (λ _ _, true)
           [("a", 1, 7%nat); ("b", 0, 8%nat)] (new_driver nat)); reflexivity.
Defined.

(** C1, the scenario of the specification on the code: on a fresh (never yet
    connected) driver, subscribe to the video stream, start a capture, then
    let the connection come up, with a client that acknowledges everything.
    The publish is handed to the client when it is issued and is not queued;
    the connect replays the subscription alone; the client has seen the
    publish before the subscribe, which is not the order of issue. *)
Lemma C1_publish_not_buffered :
  let wr : Json → string := λ _, "null" in
  let wait : list ClientCall → ClientCall → bool := λ _ _, true in
  let d0 := new_driver nat in
  let d1 := (subscribeVideoStream nat wait 0%nat d0).2 in
  let d2 := (startCapture nat wr wait JNull d1).2 in
  let d3 := (connected_handler wait d2).2 in
  let sub := CliSubscribe TOPIC_VIDEO_STREAM QOS_1 in
  let pub := CliPublish TOPIC_CMD_START_CAPTURE "null" QOS_1 false in
  connected d0 = false ∧ connected d1 = false ∧
  calls_since d1 d2 = [pub] ∧
  pending_subs d2 = [(TOPIC_VIDEO_STREAM, QOS_1)] ∧
  calls_since d2 d3 = [sub] ∧
  cli_log d3 = [pub; sub] ∧
  ¬ (calls_since d2 d3 = [sub; pub]).
Proof. repeat split; done. Qed.

(** ** Any run of a driver object

    What can happen to a driver object, one step after the other: calls from
    user code ([subscribeTopic], [publishCommand]) and the connection events
    the client library delivers on its own thread.  [subscribeTopic] holds
    [sub_mutex] from its first statement to its last, and so does the connected
    handler from its second statement on; its first statement,
    [connected = true], is executed before the mutex is taken, so a call from
    another thread can come between the two.  [publishCommand] takes no mutex
    and touches the client only: where its call falls among the subscriptions
    of a replay changes neither the sequence of subscriptions nor the sequence
    of publishes that the client is handed. *)

Section Runs.

Context {Handler : Type}.
Variable writeString : Json → string.
Variable wait_ok : list ClientCall → ClientCall → bool.
(** Whether a [std::function] holds a target ([if (it->second)]). *)
Variable callable : Handler → bool.

Inductive Op : Type :=
| OpSubscribe (topic : string) (qos : Z) (h : Handler)
| OpPublish (topic : string) (payload : Json)
| OpConnectedFlag
| OpReplay
| OpConnectionLost.

(** The connected handler from [std::lock_guard] on: the loop over
    [pending_subs] and the [clear()]. *)
Definition replay_pending (d : Driver Handler) : Outcome * Driver Handler :=
  match replay_subs wait_ok (pending_subs d) d with
  | (Returned, d2) => (Returned, set_pending_subs Handler [] d2)
  | (Threw, d2) => (Threw, d2)
  end.

Definition run_op (o : Op) (d : Driver Handler) : Outcome * Driver Handler :=
  match o with
  | OpSubscribe t q h => subscribeTopic wait_ok t q h d
  | OpPublish t p => publishCommand writeString wait_ok t p d
  | OpConnectedFlag => (Returned, set_connected Handler true d)
  | OpReplay => replay_pending d
  | OpConnectionLost => (Returned, connection_lost_handler d)
  end.

(** An exception goes to the caller of that one operation; the driver object
    lives on. *)
Definition run_ops (ops : list Op) (d : Driver Handler) : Driver Handler :=
  foldl (λ acc o, (run_op o acc).2) d ops.

(** Whole calls, and the steps of each: a run made of whole calls is one in
    which nothing comes between the two parts of the connected handler. *)
Inductive Call : Type :=
| CallSubscribe (topic : string) (qos : Z) (h : Handler)
| CallPublish (topic : string) (payload : Json)
| CallConnectedHandler
| CallConnectionLostHandler.

Definition call_steps (c : Call) : list Op :=
  match c with
  | CallSubscribe t q h => [OpSubscribe t q h]
  | CallPublish t p => [OpPublish t p]
  | CallConnectedHandler => [OpConnectedFlag; OpReplay]
  | CallConnectionLostHandler => [OpConnectionLost]
  end.

Definition uninterrupted (calls : list Call) : list Op :=
  concat (map call_steps calls).

(** The subscriptions and the publishes asked for by a run, in order. *)
Definition issued_subs (ops : list Op) : list (string * Z) :=
  omap (λ o, match o with OpSubscribe t q _ => Some (t, q) | _ => None end) ops.

Definition issued_pubs (ops : list Op) : list (string * string) :=
  omap (λ o, match o with OpPublish t p => Some (t, writeString p) | _ => None end) ops.

(** The subscriptions and the publishes the client has been handed. *)
Definition as_sub (c : ClientCall) : option (string * Z) :=
  match c with CliSubscribe t q => Some (t, q) | _ => None end.

Definition as_pub (c : ClientCall) : option (string * string) :=
  match c with CliPublish t p _ _ => Some (t, p) | _ => None end.

Definition sent_subs (d : Driver Handler) : list (string * Z) :=
  omap as_sub (cli_log d).

Definition sent_pubs (d : Driver Handler) : list (string * string) :=
  omap as_pub (cli_log d).

(** The message callback installed by [subscribeTopic]: the handler that is
    called, with its argument, if any. *)
Definition message_arrived (topic payload : string) (d : Driver Handler)
  : option (Handler * string) :=
  match handlers d !! topic with
  | Some h => if callable h then Some (h, payload) else None
  | None => None
  end.

Implicit Types (d : Driver Handler).

(** The two parts of the connected handler, one right after the other, are
    the handler. *)
Lemma connected_handler_steps d :
  run_ops [OpConnectedFlag; OpReplay] d = (connected_handler wait_ok d).2.
Proof.
  unfold run_ops, connected_handler. simpl. unfold replay_pending. simpl.
  by destruct (replay_subs wait_ok _ _) as [[] d2].
Qed.

Lemma run_ops_app (ops1 ops2 : list Op) d :
  run_ops (ops1 ++ ops2) d = run_ops ops2 (run_ops ops1 d).
Proof. unfold run_ops. by rewrite foldl_app. Qed.

Lemma sent_subs_replayed (l : list ClientCall) (subs : list (string * Z)) :
  omap as_sub (l ++ map sub_call subs) = omap as_sub l ++ subs.
Proof.
  rewrite omap_app. f_equal. induction subs as [|[t q] subs IH]; [done|].
  simpl. by f_equal.
Qed.

Lemma sent_pubs_replayed (l : list ClientCall) (subs : list (string * Z)) :
  omap as_pub (l ++ map sub_call subs) = omap as_pub l.
Proof.
  rewrite omap_app. rewrite <- (app_nil_r (omap as_pub l)) at 2. f_equal.
  by induction subs as [|[t q] subs IH].
Qed.

(** One step loses and repeats nothing; a subscription sent at once goes
    past the queue. *)
Lemma run_op_keeps_all (o : Op) d :
  (∀ log t q, wait_ok log (CliSubscribe t q) = true) →
  let d' := (run_op o d).2 in
  sent_subs d' ++ pending_subs d' ≡ₚ sent_subs d ++ pending_subs d ++ issued_subs [o] ∧
  sent_pubs d' = sent_pubs d ++ issued_pubs [o].
Proof.
  intros Hack. destruct o as [t q h|t p| | |]; simpl.
  - unfold subscribeTopic. simpl. destruct (connected d) eqn:Hc; simpl.
    + unfold sent_subs, sent_pubs. simpl.
      rewrite !omap_app. simpl. rewrite !app_nil_r. split; [|done].
      rewrite <- app_assoc. apply Permutation_app_head, Permutation_app_comm.
    + unfold sent_subs, sent_pubs. simpl. by rewrite app_nil_r.
  - unfold sent_subs, sent_pubs. simpl. rewrite !omap_app. simpl.
    by rewrite !app_nil_r.
  - unfold sent_subs, sent_pubs. simpl. by rewrite !app_nil_r.
  - unfold replay_pending. rewrite replay_subs_all by done. simpl.
    unfold sent_subs, sent_pubs. simpl.
    by rewrite sent_subs_replayed, sent_pubs_replayed, !app_nil_r.
  - unfold sent_subs, sent_pubs. simpl. by rewrite !app_nil_r.
Qed.

(** One whole call keeps the order as well, and the queue empty while the
    driver is connected. *)
Lemma run_call_books (c : Call) d :
  (∀ log t q, wait_ok log (CliSubscribe t q) = true) →
  (connected d = true → pending_subs d = []) →
  let d' := run_ops (call_steps c) d in
  sent_subs d' ++ pending_subs d'
  = sent_subs d ++ pending_subs d ++ issued_subs (call_steps c) ∧
  (connected d' = true → pending_subs d' = []).
Proof.
  intros Hack Hinv. destruct c as [t q h|t p| |]; simpl.
  - unfold subscribeTopic. simpl. destruct (connected d) eqn:Hc; simpl.
    + rewrite (Hinv eq_refl). unfold sent_subs. simpl.
      rewrite !omap_app. simpl. by rewrite ?app_nil_r.
    + unfold sent_subs. simpl. rewrite ?app_nil_r. split; [done|congruence].
  - unfold sent_subs. simpl. rewrite !omap_app. simpl. by rewrite ?app_nil_r.
  - unfold replay_pending. simpl. rewrite replay_subs_all by done. simpl.
    unfold sent_subs. simpl. by rewrite sent_subs_replayed, ?app_nil_r.
  - unfold sent_subs. simpl. rewrite ?app_nil_r. split; [done|congruence].
Qed.

Lemma uninterrupted_books (calls : list Call) d :
  (∀ log t q, wait_ok log (CliSubscribe t q) = true) →
  (connected d = true → pending_subs d = []) →
  let d' := run_ops (uninterrupted calls) d in
  sent_subs d' ++ pending_subs d'
  = sent_subs d ++ pending_subs d ++ issued_subs (uninterrupted calls) ∧
  (connected d' = true → pending_subs d' = []).
Proof.
  intros Hack. revert d. induction calls as [|c calls IH]; intros d Hinv.
  - simpl. by rewrite !app_nil_r.
  - destruct (run_call_books c d Hack Hinv) as (H1 & H2).
    destruct (IH _ H2) as (I1 & I2).
    change (uninterrupted (c :: calls)) with (call_steps c ++ uninterrupted calls).
    cbv zeta. rewrite run_ops_app, I1, (app_assoc (sent_subs _)), H1.
    split; [|done]. unfold issued_subs. by rewrite omap_app, !app_assoc.
Qed.

(** Over any interleaving of the steps in which the broker acknowledges the
    subscriptions, no subscription is lost or duplicated: the subscriptions
    handed to the client together with those still queued are the
    subscriptions asked for, each as often as it was asked for; and every
    publish asked for has been handed to the client, in order.  The order of
    the subscriptions is kept as well, and the queue is empty while the
    driver is connected, in the runs in which nothing comes between the two
    parts of the connected handler. *)
Theorem subscriptions_never_lost (ops : list Op) d :
  (∀ log t q, wait_ok log (CliSubscribe t q) = true) →
  let d' := run_ops ops d in
  sent_subs d' ++ pending_subs d' ≡ₚ sent_subs d ++ pending_subs d ++ issued_subs ops ∧
  sent_pubs d' = sent_pubs d ++ issued_pubs ops ∧
  (∀ calls, ops = uninterrupted calls →
     (connected d = true → pending_subs d = []) →
     sent_subs d' ++ pending_subs d' = sent_subs d ++ pending_subs d ++ issued_subs ops ∧
     (connected d' = true → pending_subs d' = [])).
Proof.
  intros Hack d'. split; [|split].
  - unfold d'. clear d'. revert d. induction ops as [|o ops IH]; intros d.
    + simpl. by rewrite !app_nil_r.
    + destruct (run_op_keeps_all o d Hack) as (H1 & _).
      change (run_ops (o :: ops) d) with (run_ops ops (run_op o d).2).
      rewrite (IH _), (app_assoc (sent_subs _)), H1.
      change (o :: ops) with ([o] ++ ops). unfold issued_subs.
      by rewrite omap_app, !app_assoc.
  - unfold d'. clear d'. revert d. induction ops as [|o ops IH]; intros d.
    + simpl. by rewrite !app_nil_r.
    + destruct (run_op_keeps_all o d Hack) as (_ & H2).
      change (run_ops (o :: ops) d) with (run_ops ops (run_op o d).2).
      rewrite (IH _), H2.
      change (o :: ops) with ([o] ++ ops). unfold issued_pubs.
      by rewrite omap_app, !app_assoc.
  - intros calls -> Hinv. by apply uninterrupted_books.
Qed.


(** Replaying a queue whose first entries are acknowledged and whose next
    entry is not. *)
Lemma replay_subs_until_failure (pre post : list (string * Z)) (s : string * Z) d :
  (∀ k s', pre !! k = Some s' →
     wait_ok (cli_log d ++ map sub_call (take k pre)) (sub_call s') = true) →
  wait_ok (cli_log d ++ map sub_call pre) (sub_call s) = false →
  replay_subs wait_ok (pre ++ s :: post) d
  = (Threw, {| connected := connected d; handlers := handlers d;
               pending_subs := pending_subs d;
               cli_log := cli_log d ++ map sub_call (pre ++ [s]) |}).
Proof.
  revert d. induction pre as [|s0 pre IH]; intros d Hpre Hfail.
  - simpl in *. rewrite app_nil_r in Hfail. unfold cli_call.
    unfold sub_call in Hfail. by rewrite Hfail.
  - simpl. unfold cli_call.
    pose proof (Hpre 0%nat s0 eq_refl) as H0. simpl in H0.
    rewrite app_nil_r in H0. unfold sub_call in H0 at 1. rewrite H0.
    rewrite IH; simpl.
    + by rewrite <- app_assoc.
    + intros k s' Hk. specialize (Hpre (S k) s' Hk). simpl in Hpre.
      by rewrite <- app_assoc.
    + by rewrite <- app_assoc.
Qed.

Lemma replay_subs_acked_from (n : nat) (subs : list (string * Z)) d :
  (∀ log t q, (n ≤ length log)%nat → wait_ok log (CliSubscribe t q) = true) →
  (n ≤ length (cli_log d))%nat →
  replay_subs wait_ok subs d
  = (Returned, {| connected := connected d; handlers := handlers d;
                  pending_subs := pending_subs d;
                  cli_log := cli_log d ++ map sub_call subs |}).
Proof.
  intros Hack. revert d. induction subs as [|sub rest IH]; intros d Hn.
  - simpl. rewrite app_nil_r. by destruct d.
  - simpl. unfold cli_call. rewrite Hack by done. rewrite IH; simpl.
    + by rewrite <- app_assoc.
    + rewrite length_app. lia.
Qed.

(** When the wait of a replayed subscription throws, the connected handler
    is left by the exception: the driver counts as connected, and the queue
    is kept whole, the entries already sent included.  The next time the
    connection comes up (the broker then acknowledging), the whole queue is
    sent, so the entries up to the failed one are subscribed a second time. *)
Theorem failed_replay_keeps_queue (pre post : list (string * Z)) (s : string * Z) d :
  pending_subs d = pre ++ s :: post →
  (∀ k s', pre !! k = Some s' →
     wait_ok (cli_log d ++ map sub_call (take k pre)) (sub_call s') = true) →
  wait_ok (cli_log d ++ map sub_call pre) (sub_call s) = false →
  (∀ log t q, (length (cli_log d) + length pre < length log)%nat →
     wait_ok log (CliSubscribe t q) = true) →
  let r1 := connected_handler wait_ok d in
  let r2 := connected_handler wait_ok (connection_lost_handler r1.2) in
  r1.1 = Threw ∧ connected r1.2 = true ∧
  pending_subs r1.2 = pre ++ s :: post ∧
  calls_since d r1.2 = map sub_call (pre ++ [s]) ∧
  r2.1 = Returned ∧ pending_subs r2.2 = [] ∧
  calls_since r1.2 r2.2 = map sub_call (pre ++ s :: post).
Proof.
  intros Hq Hpre Hfail Hlater r1 r2.
  assert (Hr1 : r1 = (Threw, {| connected := true; handlers := handlers d;
                                pending_subs := pre ++ s :: post;
                                cli_log := cli_log d ++ map sub_call (pre ++ [s]) |})).
  { unfold r1, connected_handler. simpl. rewrite Hq.
    rewrite (replay_subs_until_failure pre post s); [by simpl; rewrite Hq|done..]. }
  assert (Hr2 : r2 = (Returned,
            {| connected := true; handlers := handlers d; pending_subs := [];
               cli_log := (cli_log d ++ map sub_call (pre ++ [s]))
                          ++ map sub_call (pre ++ s :: post) |})).
  { unfold r2. rewrite Hr1. unfold connected_handler. simpl.
    rewrite (replay_subs_acked_from (S (length (cli_log d) + length pre))); [done| |].
    - intros log t q Hlen. apply Hlater. lia.
    - simpl. rewrite length_app, length_map, length_app. simpl. lia. }
  rewrite Hr2, Hr1. simpl. split_and!; try done.
  - by apply calls_since_app.
  - by apply calls_since_app.
Qed.

(** The handler table: the last handler registered for a topic is the one a
    message on that topic reaches (if it holds a target), whatever the
    connection state and whether or not the subscribe call itself succeeded;
    other topics are not affected; publishes and connection events leave the
    table alone; a fresh driver has no handler. *)
Theorem last_registered_handler_wins (t : string) (q : Z) (h : Handler)
    (topic payload : string) d :
  let d1 := (subscribeTopic wait_ok t q h d).2 in
  message_arrived t payload d1 = (if callable h then Some (h, payload) else None) ∧
  (topic ≠ t → message_arrived topic payload d1 = message_arrived topic payload d) ∧
  (∀ o, (∀ t' q' h', o ≠ OpSubscribe t' q' h') →
        message_arrived topic payload (run_op o d).2 = message_arrived topic payload d) ∧
  message_arrived topic payload (new_driver Handler) = None.
Proof.
  intros d1. unfold message_arrived. split_and!.
  - unfold d1, subscribeTopic. simpl.
    destruct (connected d); simpl; by rewrite lookup_insert_eq.
  - intros Hne. unfold d1, subscribeTopic. simpl.
    destruct (connected d); simpl; by rewrite lookup_insert_ne.
  - intros o Ho. destruct o as [t' q' h'|t' p| | |]; simpl; try done.
    + by destruct (Ho t' q' h').
    + unfold replay_pending.
      destruct (replay_subs_prefix wait_ok (pending_subs d) d) as (k & _ & _ & _ & Hh).
      destruct (replay_subs wait_ok _ _) as [[] d2]; simpl in *; by rewrite Hh.
  - done.
Qed.

End Runs.

(** A run from a fresh driver: subscribe before the first connect, connect,
    subscribe and publish while connected, lose the connection, subscribe,
    reconnect. *)
Example run_in_order :
  let wait : list ClientCall → ClientCall → bool := λ _ _, true in
  let d := run_ops (λ _, "{}") wait
             (uninterrupted
                [CallSubscribe "a" 1 7%nat; CallConnectedHandler;
                 CallSubscribe "b" 1 8%nat; CallPublish "c" JNull;
                 CallConnectionLostHandler; CallSubscribe "d" 1 9%nat;
                 CallConnectedHandler]) (new_driver nat) in
  cli_log d = [CliSubscribe "a" 1; CliSubscribe "b" 1; CliPublish "c" "{}" 1 false;
               CliSubscribe "d" 1] ∧ pending_subs d = [].
Proof. done. Qed.

(** A subscription that comes between the two parts of the connected
    handler: the flag is already set, so "b" is sent at once, ahead of the
    queued "a", and for a moment the driver is connected with a queue that is
    not empty. *)
Definition overtaking : list (Op (Handler := nat)) :=
  [OpSubscribe "a" 1 7%nat; OpConnectedFlag; OpSubscribe "b" 1 8%nat; OpReplay].

Example subscription_overtakes_queue :
  let wait : list ClientCall → ClientCall → bool := λ _ _, true in
  let d1 := run_ops (λ _, "{}") wait (take 3 overtaking) (new_driver nat) in
  let d2 := run_ops (λ _, "{}") wait overtaking (new_driver nat) in
  connected d1 = true ∧ pending_subs d1 = [("a", 1)] ∧
  cli_log d1 = [CliSubscribe "b" 1] ∧
  cli_log d2 = [CliSubscribe "b" 1; CliSubscribe "a" 1] ∧ pending_subs d2 = [].
Proof. done. Qed.

Lemma subscriptions_never_lost_witness :
  let wait : list ClientCall → ClientCall → bool := λ _ _, true in
  let d' := run_ops (λ _, "{}") wait overtaking (new_driver nat) in
  sent_subs d' ++ pending_subs d' ≡ₚ [("a", 1); ("b", 1)] ∧
  sent_subs d' ++ pending_subs d' = [("b", 1); ("a", 1)] ∧
  sent_pubs d' = [].
Proof.
  intros wait d'.
  destruct (subscriptions_never_lost (λ _, "{}") wait overtaking (new_driver nat)
              (λ _ _ _, eq_refl)) as (Hperm & Hpubs & _).
  split; [exact Hperm|]. split; [reflexivity|exact Hpubs].
Defined.


(** A broker that fails the second call made on the client, on a driver with
    three queued subscriptions. *)
Definition second_call_fails (log : list ClientCall) (c : ClientCall) : bool :=
  negb (length log =? 1)%nat.

Definition three_queued : Driver nat :=
  subscribe_all second_call_fails [("a", 1, 7%nat); ("b", 1, 8%nat); ("c", 1, 9%nat)]
    (new_driver nat).

Lemma failed_replay_keeps_queue_witness :
  let r1 := connected_handler second_call_fails three_queued in
  let r2 := connected_handler second_call_fails (connection_lost_handler r1.2) in
  r1.1 = Threw ∧ connected r1.2 = true ∧
  pending_subs r1.2 = [("a", 1); ("b", 1); ("c", 1)] ∧
  calls_since three_queued r1.2 = [CliSubscribe "a" 1; CliSubscribe "b" 1] ∧
  r2.1 = Returned ∧ pending_subs r2.2 = [] ∧
  calls_since r1.2 r2.2 = [CliSubscribe "a" 1; CliSubscribe "b" 1; CliSubscribe "c" 1].
Proof.
  apply (failed_replay_keeps_queue second_call_fails [("a", 1)] [("c", 1)] ("b", 1)
           three_queued).
  - reflexivity.
  - intros [|k] s' Hk; [injection Hk as <-; reflexivity|discriminate].
  - reflexivity.
  - intros log t q Hlen. unfold second_call_fails.
    simpl in Hlen. destruct log as [|? [|? ?]]; simpl in *; try lia; reflexivity.
Defined.

End UsbCamera.

(** Whether [needle] occurs in [hay] (used to say that a message names a
    field). *)
Fixpoint contains (needle hay : string) : bool :=
  String.prefix needle hay
  || match hay with
     | EmptyString => false
     | String _ rest => contains needle rest
     end.

(** The double quote character, and a string between double quotes. *)
Definition dq : string := String (Ascii.ascii_of_nat 34) EmptyString.
Definition quoted (s : string) : string := (dq ++ s ++ dq)%string.

(** ** [std::stoi]

    As the two ROS drivers use it (base 10): white space is skipped, then an
    optional sign, then the longest run of digits; what follows is ignored.
    The call throws when there is no digit ([std::invalid_argument]) or the
    value does not fit an [int] ([std::out_of_range]): result [None]. *)

Definition is_space (c : Ascii.ascii) : bool :=
  let n := Ascii.nat_of_ascii c in
  (n =? 32)%nat || ((9 <=? n)%nat && (n <=? 13)%nat).

Definition digit_value (c : Ascii.ascii) : option Z :=
  let n := Z.of_nat (Ascii.nat_of_ascii c) in
  if (48 <=? n) && (n <=? 57) then Some (n - 48) else None.

Fixpoint skip_spaces (s : string) : string :=
  match s with
  | String c rest => if is_space c then skip_spaces rest else s
  | EmptyString => s
  end.

(** The value of the longest run of digits at the front of [s], after the
    digits already read ([acc], if any). *)
Fixpoint read_digits (s : string) (acc : option Z) : option Z :=
  match s with
  | String c rest =>
      match digit_value c with
      | Some v => read_digits rest (Some (10 * default 0 acc + v))
      | None => acc
      end
  | EmptyString => acc
  end.

Definition INT_MIN : Z := -2147483648.
Definition INT_MAX : Z := 2147483647.

Definition stoi (s : string) : option Z :=
  let s1 := skip_spaces s in
  let '(negative, s2) :=
    match s1 with
    | String "-"%char rest => (true, rest)
    | String "+"%char rest => (false, rest)
    | _ => (false, s1)
    end in
  match read_digits s2 None with
  | None => None
  | Some v =>
      let r := if negative then - v else v in
      if (INT_MIN <=? r) && (r <=? INT_MAX) then Some r else None
  end.

Example stoi_examples :
  stoi "8080" = Some 8080 ∧ stoi "  -17abc" = Some (-17) ∧ stoi "+5" = Some 5 ∧
  stoi "" = None ∧ stoi "abc" = None ∧ stoi "-" = None ∧
  stoi "2147483647" = Some 2147483647 ∧ stoi "2147483648" = None ∧
  stoi "-2147483648" = Some (-2147483648) ∧ stoi "12 34" = Some 12.
Proof. vm_compute. split_and!; reflexivity. Qed.

(** * The ROS 2 bridge driver (HTTP /move, phase reconciliation) *)

Module Ros2Driver.

(** ** [Ros2BridgeClient] *)

Record Ros2BridgeClient : Type := mkClient {
  ws_url : string;
  connected_ : bool
}.

(** The constructor: [ws_url(address), connected_(false)]. *)
Definition new_client (address : string) : Ros2BridgeClient :=
  {| ws_url := address; connected_ := false |}.

(** [connect()]: sets the flag and returns it. *)
Definition connect (c : Ros2BridgeClient) : bool * Ros2BridgeClient :=
  let c' := {| ws_url := ws_url c; connected_ := true |} in
  (connected_ c', c').

Definition is_connected (c : Ros2BridgeClient) : bool := connected_ c.

(** [send_movement_command(direction)]. *)
Definition send_movement_command (direction : string) (c : Ros2BridgeClient) : bool :=
  if negb (is_connected c) then false
  else String.eqb direction "forward" || String.eqb direction "backward"
       || String.eqb direction "left" || String.eqb direction "right"
       || String.eqb direction "stop".

Definition get_status_string (ok : bool) : string :=
  if ok then "Running" else "Failed".





(** ** POST /move *)

(** [payload.value(key, default)] of nlohmann::json with a string default: the
    default when the object has no such member, the member when it is a
    string; the library throws a [type_error] when the receiver is not an
    object (306) or the member is not a string (302): result [None]. *)
Definition json_value_string (payload : Json) (key default : string) : option string :=
  match payload with
  | JObject o =>
      match o !! key with
      | None => Some default
      | Some (JString s) => Some s
      | Some _ => None
      end
  | _ => None
  end.

(** [httplib::Response] as the handler leaves it: the status and the JSON
    document whose dump is the body. *)
Record Response : Type := mkResponse {
  status : Z;
  content : Json;
  content_type : string
}.

Definition resp_invalid_json : Response :=
  {| status := 400;
     content := JObject (<[ "message" := JString "Invalid JSON payload" ]>
                          (<[ "status" := JString "error" ]> ∅));
     content_type := "application/json" |}.

Definition resp_missing_direction : Response :=
  {| status := 400;
     content := JObject (<[ "message" := JString "Missing 'direction' field" ]>
                          (<[ "status" := JString "error" ]> ∅));
     content_type := "application/json" |}.

Definition resp_sent (direction : string) : Response :=
  {| status := 200;
     content := JObject (<[ "message" := JString "Movement command sent" ]>
                          (<[ "direction" := JString direction ]>
                            (<[ "status" := JString "ok" ]> ∅)));
     content_type := "application/json" |}.

Definition resp_send_failed : Response :=
  {| status := 500;
     content := JObject (<[ "message" := JString "Failed to send command" ]>
                          (<[ "status" := JString "fail" ]> ∅));
     content_type := "application/json" |}.

Section Move.

(** [nlohmann::json::parse]: [None] when it throws. *)
Variable json_parse : string → option Json.

(** [handle_move]: both exceptions (of [parse] and of [value]) end in the
    [catch (...)] branch. *)
Definition handle_move (body : string) (client : Ros2BridgeClient) : Response :=
  match json_parse body with
  | None => resp_invalid_json
  | Some payload =>
      match json_value_string payload "direction" "" with
      | None => resp_invalid_json
      | Some direction =>
          if String.eqb direction "" then resp_missing_direction
          else
            let ok := send_movement_command direction client in
            if ok then resp_sent direction else resp_send_failed
      end
  end.

End Move.

(** The message member of a response document. *)
Definition message_of (r : Response) : string :=
  match content r with
  | JObject o => match o !! "message" with Some (JString m) => m | _ => "" end
  | _ => ""
  end.

Definition status_of (r : Response) : string :=
  match content r with
  | JObject o => match o !! "status" with Some (JString m) => m | _ => "" end
  | _ => ""
  end.

Definition known_direction (direction : string) : Prop :=
  direction ∈ ["forward"; "backward"; "left"; "right"; "stop"].

(** ** The phase reconciliation loop *)

(** One PATCH of the EdgeDevice status: the phase sent and what
    [patch_edgedevice_phase] returned. *)
Definition Report : Type := string * bool.

(** What one loop iteration meets: the bridge client as it is then, and the
    result the control plane would give to a PATCH made in this iteration. *)
Record TickEnv : Type := mkTickEnv {
  bridge : Ros2BridgeClient;
  patch_result : bool
}.

(** Lines 269-271: the candidate phase of an iteration. *)
Definition candidate_phase (b : Ros2BridgeClient) : string :=
  let new_phase := "Unknown" in
  if is_connected b then "Running" else "Pending".

(** Where the loop thread stands. *)
Inductive LoopPc : Type := AtCheck | InBody | Exited.

(** The globals [running] and [phase], the PATCH calls made so far, and the
    position of the loop thread. *)
Record World : Type := mkWorld {
  running : bool;
  phase : string;
  reports : list Report;
  pc : LoopPc
}.

(** The global initialisers: [running(true)], [phase("Pending")]. *)
Definition initial_world : World :=
  {| running := true; phase := "Pending"; reports := []; pc := AtCheck |}.

(** The body of the [while] loop (lines 269-278). *)
Definition tick (e : TickEnv) (w : World) : World :=
  let new_phase := candidate_phase (bridge e) in
  if decide (phase w ≠ new_phase) then
    {| running := running w;
       phase := if patch_result e then new_phase else phase w;
       reports := reports w ++ [(new_phase, patch_result e)];
       pc := pc w |}
  else w.

Definition set_pc (p : LoopPc) (w : World) : World :=
  {| running := running w; phase := phase w; reports := reports w; pc := p |}.

Definition set_running (b : bool) (w : World) : World :=
  {| running := b; phase := phase w; reports := reports w; pc := pc w |}.

(** One move of the loop thread: the test of [while (running)], or one body
    (and its sleep). *)
Definition loop_step (e : TickEnv) (w : World) : World :=
  match pc w with
  | AtCheck => if running w then set_pc InBody w else set_pc Exited w
  | InBody => set_pc AtCheck (tick e w)
  | Exited => w
  end.

(** [update_phase_thread] for as long as there are observations. *)
Definition update_phase_thread (envs : list TickEnv) (w : World) : World :=
  foldl (λ acc e, loop_step e acc) w envs.

(** [sigint_handler]. *)
Definition sigint_handler (w : World) : World := set_running false w.

(** [upd_thr.join()]: the loop thread moves until it has left the loop;
    [None] when the observations run out first. *)
Fixpoint join (envs : list TickEnv) (w : World) : option World :=
  match pc w with
  | Exited => Some w
  | _ => match envs with
         | [] => None
         | e :: rest => join rest (loop_step e w)
         end
  end.

(** [patch_edgedevice_phase(ns, name, phase)] called from [main], its result
    dropped. *)
Definition main_patch (p : string) (result : bool) (w : World) : World :=
  {| running := running w; phase := phase w;
     reports := reports w ++ [(p, result)]; pc := pc w |}.

(** [main] after [svr.listen] has returned (lines 340-343): the exit code and
    the final world. *)
Definition main_shutdown (envs : list TickEnv) (final_result : bool) (w : World)
  : option (Z * World) :=
  let w1 := set_running false w in
  w2 ← join envs w1;
  Some (0, main_patch "Pending" final_result w2).

(** [main] from the device address to the start of the loop thread (lines
    311-324): without an address it reports Unknown and exits with 1. *)
Definition main_startup (device_address : string) (patch1 : bool)
  : (Z * World) + (Ros2BridgeClient * World) :=
  if String.eqb device_address "" then
    inl (1, main_patch "Unknown" patch1 initial_world)
  else
    let '(connected, ros2_client) := connect (new_client device_address) in
    let w1 := main_patch (if connected then "Running" else "Failed") patch1 initial_world in
    inr (ros2_client,
         {| running := running w1;
            phase := if connected then "Running" else "Failed";
            reports := reports w1; pc := pc w1 |}).

(** ** The derivation rule in the words of the specification *)




(** ** Facts about the bridge client *)



Lemma send_movement_command_known (direction : string) (c : Ros2BridgeClient) :
  is_connected c = true → known_direction direction →
  send_movement_command direction c = true.
Proof.
  intros Hc Hk. unfold send_movement_command. rewrite Hc. simpl.
  unfold known_direction in Hk.
  repeat (apply elem_of_cons in Hk as [->|Hk]; [done|]).
  by apply elem_of_nil in Hk.
Qed.

Lemma send_movement_command_unknown (direction : string) (c : Ros2BridgeClient) :
  ¬ known_direction direction → send_movement_command direction c = false.
Proof.
  intros Hk. unfold send_movement_command.
  destruct (negb (is_connected c)); [done|].
  repeat match goal with
  | |- context [String.eqb direction ?s] =>
      destruct (String.eqb_spec direction s) as [->|_];
      [exfalso; apply Hk; unfold known_direction; set_solver|]
  end.
  done.
Qed.

Lemma send_movement_command_disconnected (direction : string) (c : Ros2BridgeClient) :
  is_connected c = false → send_movement_command direction c = false.
Proof. intros Hc. unfold send_movement_command. by rewrite Hc. Qed.

(** ** Candidate phase *)



(** ** Reporting *)

(** The loop thread leaves the loop only through a loop test that finds
    [running] cleared. *)
Lemma loop_runs_while_running (envs : list TickEnv) (w : World) :
  running w = true → pc w ≠ Exited →
  running (update_phase_thread envs w) = true ∧
  pc (update_phase_thread envs w) ≠ Exited.
Proof.
  revert w. induction envs as [|e envs IH]; intros w Hr Hp; [done|].
  simpl. apply IH.
  - unfold loop_step. destruct (pc w); simpl; rewrite ?Hr; try done.
    unfold tick. by destruct (decide _).
  - unfold loop_step. destruct (pc w); simpl; rewrite ?Hr; try done.
Qed.

(** C4.  In one iteration of the loop the PATCH is made only when the
    candidate differs from the stored phase; the stored phase becomes the
    candidate when the PATCH succeeds and stays when it fails, in which case
    the next iteration (same bridge state) makes the PATCH again.  The
    iteration changes neither [running] nor the position of the loop thread:
    from the loop test with [running] set, the test and one body bring the
    thread back to the loop test with [running] still set, whatever the
    PATCH returned; over any number of moves and any PATCH results, a thread
    in the loop with [running] set is still in the loop. *)
Theorem C4_report_on_change_and_retry (e : TickEnv) (w : World) :
  let c := candidate_phase (bridge e) in
  let w' := tick e w in
  (c = phase w → w' = w) ∧
  (c ≠ phase w →
     reports w' = reports w ++ [(c, patch_result e)] ∧
     phase w' = (if patch_result e then c else phase w)) ∧
  (c ≠ phase w → patch_result e = false →
     ∀ e2, bridge e2 = bridge e →
       reports (tick e2 w') = reports w' ++ [(c, patch_result e2)]) ∧
  running w' = running w ∧ pc w' = pc w ∧
  (running w = true → pc w = AtCheck →
     ∀ e0, loop_step e (loop_step e0 w) = set_pc AtCheck w' ∧
           running (set_pc AtCheck w') = true ∧ pc (set_pc AtCheck w') = AtCheck) ∧
  (running w = true → pc w ≠ Exited →
     ∀ envs, running (update_phase_thread envs w) = true ∧
             pc (update_phase_thread envs w) ≠ Exited).
Proof.
  intros c w'.
  cut ((c = phase w → w' = w) ∧
  (c ≠ phase w →
     reports w' = reports w ++ [(c, patch_result e)] ∧
     phase w' = (if patch_result e then c else phase w)) ∧
  (c ≠ phase w → patch_result e = false →
     ∀ e2, bridge e2 = bridge e →
       reports (tick e2 w') = reports w' ++ [(c, patch_result e2)]) ∧
  running w' = running w ∧ pc w' = pc w ∧
  (running w = true → pc w = AtCheck →
     ∀ e0, loop_step e (loop_step e0 w) = set_pc AtCheck w' ∧
           running (set_pc AtCheck w') = true ∧ pc (set_pc AtCheck w') = AtCheck)).
  { intros (H1 & H2 & H3 & H4 & H5 & H6). split_and!; try done.
    intros Hr Hp envs. by apply loop_runs_while_running. }
  unfold w', tick. fold c.
  destruct (decide (phase w ≠ c)) as [Hne|Heq].
  - simpl. split; [congruence|]. split; [done|]. split.
    + intros _ Hfail e2 He2. rewrite Hfail. simpl. rewrite He2. fold c.
      by destruct (decide (phase w ≠ c)).
    + do 2 (split; [done|]). intros Hr Hp e0.
      unfold loop_step. rewrite Hp, Hr. simpl. unfold tick. fold c. simpl.
      destruct (decide (phase w ≠ c)); [|done]. simpl. by rewrite Hr.
  - apply dec_stable in Heq. split; [done|]. split; [congruence|].
    split; [congruence|]. do 2 (split; [done|]). intros Hr Hp e0.
    unfold loop_step. rewrite Hp, Hr. simpl. unfold tick. fold c. simpl.
    destruct (decide (phase w ≠ c)); [done|]. by rewrite Hr.
Qed.

Lemma exited_stays (envs : list TickEnv) (w : World) :
  pc w = Exited → update_phase_thread envs w = w.
Proof.
  induction envs as [|e envs IH]; intros Hp; [done|].
  change (update_phase_thread envs (loop_step e w) = w).
  unfold loop_step. rewrite Hp. by apply IH.
Qed.

Lemma tick_reports (e : TickEnv) (w : World) :
  ∃ l, reports (tick e w) = reports w ++ l ∧ (length l ≤ 1)%nat
       ∧ running (tick e w) = running w ∧ pc (tick e w) = pc w.
Proof.
  unfold tick. destruct (decide _).
  - eexists [_]. simpl. repeat split; lia.
  - exists []. rewrite app_nil_r. repeat split; simpl; lia.
Qed.

Lemma join_exited (envs : list TickEnv) (w : World) :
  pc w = Exited → join envs w = Some w.
Proof. intros H. destruct envs; simpl; by rewrite H. Qed.

Lemma join_cons (e : TickEnv) (envs : list TickEnv) (w : World) :
  pc w ≠ Exited → join (e :: envs) w = join envs (loop_step e w).
Proof. intros H. simpl. by destruct (pc w). Qed.

(** With [running] cleared the loop thread is out of the loop after at most
    two moves. *)
Lemma join_when_cleared (e1 e2 : TickEnv) (envs : list TickEnv) (w : World) :
  running w = false →
  join (e1 :: e2 :: envs) w
  = Some match pc w with
         | AtCheck => set_pc Exited w
         | InBody => set_pc Exited (set_pc AtCheck (tick e1 w))
         | Exited => w
         end.
Proof.
  intros Hr. destruct (pc w) eqn:Hp.
  - rewrite join_cons by congruence. unfold loop_step. rewrite Hp, Hr.
    by apply join_exited.
  - rewrite join_cons by congruence. unfold loop_step at 1. rewrite Hp.
    destruct (tick_reports e1 w) as (l & _ & _ & Hr' & _).
    rewrite join_cons by done. unfold loop_step. simpl. rewrite Hr', Hr.
    by apply join_exited.
  - by apply join_exited.
Qed.

(** C8.  When [main] comes back from [svr.listen] it clears [running] and
    joins the loop thread, which leaves the loop at its next loop test (a body
    that was under way is finished first and may make its one PATCH); then
    [main] makes exactly one PATCH of phase Pending, drops its result, and
    exits with code 0.  Nothing is reported after it. *)
Theorem C8_shutdown_reports_pending_once
    (envs : list TickEnv) (final_result : bool) (w : World) :
  (2 ≤ length envs)%nat →
  ∃ w' inflight,
    main_shutdown envs final_result w = Some (0, w') ∧
    pc w' = Exited ∧ running w' = false ∧
    reports w' = reports w ++ inflight ++ [("Pending", final_result)] ∧
    (length inflight ≤ 1)%nat ∧
    (pc w ≠ InBody → inflight = []) ∧
    (∀ more, update_phase_thread more w' = w').
Proof.
  intros Hlen. destruct envs as [|e1 [|e2 envs]]; simpl in Hlen; try lia.
  unfold main_shutdown. rewrite join_when_cleared by done. simpl.
  destruct (pc w) eqn:Hp; simpl.
  - eexists _, []. split; [reflexivity|]. simpl.
    split_and!; try done; try lia. intros more. by apply exited_stays.
  - destruct (tick_reports e1 (set_running false w)) as (l & Hl & Hlen' & Hr & Hpc).
    eexists _, l. split; [reflexivity|]. simpl.
    split_and!; try done.
    + rewrite Hl. simpl. by rewrite <- app_assoc.
    + intros more. by apply exited_stays.
  - eexists _, []. split; [reflexivity|]. simpl.
    split_and!; try done; try lia. intros more. by apply exited_stays.
Qed.

(** ** POST /move *)

Section MoveFacts.

Variable json_parse : string → option Json.

(** C10 (as the code has it).  For a request whose body parses to a JSON
    object in which "direction" is absent or a string: an absent or empty
    direction gives 400 with a message naming 'direction'; a direction among
    forward, backward, left, right, stop, with the bridge connected, gives 200
    with status "ok" and the direction echoed; any other non-empty string
    gives 500 with status "fail" (as does any direction while the bridge is
    not connected).  A body that parses to something else (not an object, or
    an object whose "direction" is not a string) gives 400 with the message
    "Invalid JSON payload". *)
Theorem C10_move_responses (body : string) (payload : Json) (client : Ros2BridgeClient) :
  json_parse body = Some payload →
  let r := handle_move json_parse body client in
  (∀ o, payload = JObject o →
        o !! "direction" = None ∨ o !! "direction" = Some (JString "") →
        r = resp_missing_direction ∧ status r = 400 ∧
        contains "'direction'" (message_of r) = true) ∧
  (∀ o dir, payload = JObject o → o !! "direction" = Some (JString dir) → dir ≠ "" →
        (is_connected client = true → known_direction dir →
           r = resp_sent dir ∧ status r = 200 ∧ status_of r = "ok" ∧
           content r = JObject (<[ "message" := JString "Movement command sent" ]>
                                 (<[ "direction" := JString dir ]>
                                   (<[ "status" := JString "ok" ]> ∅)))) ∧
        (¬ known_direction dir ∨ is_connected client = false →
           r = resp_send_failed ∧ status r = 500 ∧ status_of r = "fail")) ∧
  ((∀ o, payload ≠ JObject o) ∨
   (∃ o v, payload = JObject o ∧ o !! "direction" = Some v ∧ ∀ s, v ≠ JString s) →
        r = resp_invalid_json ∧ status r = 400 ∧
        message_of r = "Invalid JSON payload").
Proof.
  intros Hparse r. unfold r, handle_move. rewrite Hparse. clear r.
  split; [|split].
  - intros o -> [Hd|Hd]; simpl; rewrite Hd; simpl; done.
  - intros o dir -> Hd Hne. simpl. rewrite Hd.
    destruct (String.eqb_spec dir "") as [?|_]; [done|]. split.
    + intros Hc Hk. by rewrite send_movement_command_known.
    + intros [Hk|Hc].
      * by rewrite send_movement_command_unknown.
      * by rewrite send_movement_command_disconnected.
  - intros [Hno|(o & v & -> & Hd & Hv)].
    + destruct payload; simpl; try done. by destruct (Hno members).
    + simpl. rewrite Hd. destruct v; try done. by destruct (Hv s).
Qed.

End MoveFacts.

(** ** Concrete requests *)

Definition body_forward : string :=
  ("{" ++ quoted "direction" ++ ": " ++ quoted "forward" ++ "}")%string.
Definition body_five : string :=
  ("{" ++ quoted "direction" ++ ": 5}")%string.
Definition body_array : string := "[]".

(** What the parser gives on these three bodies. *)
Definition parse_examples (body : string) : option Json :=
  if String.eqb body body_forward then
    Some (JObject {[ "direction" := JString "forward" ]})
  else if String.eqb body body_five then
    Some (JObject {[ "direction" := JInt 5 ]})
  else if String.eqb body body_array then Some (JArray [])
  else None.

Definition connected_client : Ros2BridgeClient := (connect (new_client "ws://robot")).2.

Example candidate_connected : candidate_phase connected_client = "Running".
Proof. reflexivity. Qed.

Example candidate_fresh : candidate_phase (new_client "ws://robot") = "Pending".
Proof. reflexivity. Qed.

(** Start-up: without a device address [main] reports Unknown and exits with
    1; with one, the bridge connects and Running is reported and stored. *)
Example startup_without_address :
  main_startup "" true = inl (1, main_patch "Unknown" true initial_world).
Proof. reflexivity. Qed.

Example startup_with_address :
  main_startup "ws://robot" true
  = inr (connected_client,
         {| running := true; phase := "Running";
            reports := [("Running", true)]; pc := AtCheck |}).
Proof. reflexivity. Qed.

(** A failed PATCH is made again at the next iteration; a successful one is
    not repeated. *)
Example retry_then_quiet :
  let e_fail := {| bridge := connected_client; patch_result := false |} in
  let e_ok := {| bridge := connected_client; patch_result := true |} in
  let w := update_phase_thread [e_fail; e_fail; e_fail; e_ok; e_ok; e_ok; e_ok]
             initial_world in
  reports w = [("Running", false); ("Running", true)] ∧ phase w = "Running" ∧
  pc w = InBody ∧ running w = true.
Proof. vm_compute. done. Qed.

(** C8, at a concrete shutdown: the loop thread is in a body (bridge
    connected, phase still Pending) when [svr.listen] returns. *)
Lemma C8_witness :
  let e := {| bridge := connected_client; patch_result := true |} in
  let w := set_pc InBody initial_world in
  (2 ≤ length [e; e])%nat ∧
  ∃ w' inflight,
    main_shutdown [e; e] false w = Some (0, w') ∧
    pc w' = Exited ∧ running w' = false ∧
    reports w' = reports w ++ inflight ++ [("Pending", false)] ∧
    (length inflight ≤ 1)%nat ∧
    (pc w ≠ InBody → inflight = []) ∧
    (∀ more, update_phase_thread more w' = w').
Proof.
  split; [simpl; lia|].
  apply (C8_shutdown_reports_pending_once
           [{| bridge := connected_client; patch_result := true |};
            {| bridge := connected_client; patch_result := true |}]
           false (set_pc InBody initial_world)).
  simpl; lia.
Defined.

Example shutdown_in_body :
  let e := {| bridge := connected_client; patch_result := true |} in
  (λ r, (r.1, reports r.2)) <$> main_shutdown [e; e] false (set_pc InBody initial_world)
  = Some (0, [("Running", true); ("Pending", false)]).
Proof. vm_compute. done. Qed.

(** C10, at a concrete request: a connected bridge and direction forward. *)
Lemma C10_witness :
  parse_examples body_forward = Some (JObject {[ "direction" := JString "forward" ]}) ∧
  handle_move parse_examples body_forward connected_client = resp_sent "forward".
Proof.
  split; [reflexivity|].
  destruct (C10_move_responses parse_examples body_forward
              (JObject {[ "direction" := JString "forward" ]})
              connected_client eq_refl) as (_ & H & _).
  destruct (H {[ "direction" := JString "forward" ]} "forward" eq_refl eq_refl)
    as [Hok _]; [discriminate|].
  apply Hok; [reflexivity|].
  unfold known_direction. apply elem_of_cons. by left.
Defined.

(** C10, where the statement of the specification fails: the bodies of
    these requests parse as JSON.  In the first, "direction" is the number 5, a direction value
    outside the five known ones: the answer is not 500/"fail" but 400 with
    the message "Invalid JSON payload".  In the second, an array, the
    "direction" field is missing: the answer is 400, with the same message,
    which does not name 'direction'. *)
Lemma C10_parsed_body_answered_as_invalid_json :
  let r5 := handle_move parse_examples body_five connected_client in
  let ra := handle_move parse_examples body_array connected_client in
  parse_examples body_five = Some (JObject {[ "direction" := JInt 5 ]}) ∧
  parse_examples body_array = Some (JArray []) ∧
  is_connected connected_client = true ∧
  status r5 = 400 ∧ status r5 ≠ 500 ∧ status_of r5 = "error" ∧
  message_of r5 = "Invalid JSON payload" ∧
  status ra = 400 ∧ message_of ra = "Invalid JSON payload" ∧
  contains "direction" (message_of ra) = false.
Proof. vm_compute. split_and!; done. Qed.

(** ** The rest of the driver: the control-plane calls and start-up *)

(** What a libcurl transfer comes to: whether [curl_easy_init] gave a handle,
    whether [curl_easy_perform] returned [CURLE_OK], the response code, and
    the response body as [nlohmann::json::parse] reads it ([None] when it
    throws). *)
Record Transfer : Type := mkTransfer {
  curl_handle : bool;
  perform_ok : bool;
  status_code : Z;
  response : option Json
}.

(** [patch_edgedevice_phase], as far as its result goes (lines 103-125). *)
Definition patch_edgedevice_phase (t : Transfer) : bool :=
  if negb (curl_handle t) then false
  else if negb (perform_ok t) || ((status_code t <? 200) || (300 <=? status_code t))
       then false
       else true.

(** [json.contains(key)] of nlohmann::json: false on anything but an object. *)
Definition json_contains (key : string) (j : Json) : bool :=
  match j with
  | JObject o => bool_decide (is_Some (o !! key))
  | _ => false
  end.

(** [json[key]] on an object that has the member. *)
Definition json_at (key : string) (j : Json) : option Json :=
  match j with
  | JObject o => o !! key
  | _ => None
  end.

(** [j.get<std::string>()]: throws unless [j] is a string. *)
Definition json_get_string (j : Json) : option string :=
  match j with
  | JString s => Some s
  | _ => None
  end.

(** [get_edgedevice_spec] (lines 129-161): the spec when it returns true. *)
Definition get_edgedevice_spec (t : Transfer) : option Json :=
  if negb (curl_handle t) then None
  else if negb (perform_ok t) then None
  else match response t with
       | None => None
       | Some json => if json_contains "spec" json then json_at "spec" json else None
       end.

(** Lines 304-310: the device address ([Some ""] when none was found,
    [None] when [get<std::string>] throws). *)
Definition find_device_address (t : Transfer) : option string :=
  match get_edgedevice_spec t with
  | Some edgedevice_spec =>
      if json_contains "address" edgedevice_spec
      then json_at "address" edgedevice_spec ≫= json_get_string
      else Some ""
  | None => Some ""
  end.

(** [main] up to the start of the loop thread (lines 286-324): [None] when
    an exception leaves [main] ([std::stoi] on the port, [YAML::LoadFile],
    [get<std::string>]), else as [main_startup]. *)
Definition main_start (edgedevice_name edgedevice_namespace server_port : string)
    (instructions_loaded : bool) (spec_transfer patch_transfer : Transfer)
  : option ((Z * World) + (Ros2BridgeClient * World)) :=
  match stoi server_port with
  | None => None
  | Some _ =>
      if String.eqb edgedevice_name "" || String.eqb edgedevice_namespace ""
      then Some (inl (1, initial_world))
      else if negb instructions_loaded then None
      else
        device_address ← find_device_address spec_transfer;
        Some (main_startup device_address (patch_edgedevice_phase patch_transfer))
  end.

(** The phases the control plane has acknowledged among some reports, in
    order. *)
Definition acked (l : list Report) : list string :=
  omap (λ r : Report, if r.2 then Some r.1 else None) l.

(** No two neighbours are equal. *)
Fixpoint no_repeat (l : list string) : Prop :=
  match l with
  | a :: (b :: _) as rest => a ≠ b ∧ no_repeat rest
  | _ => True
  end.

Lemma send_movement_command_sent (direction : string) (c : Ros2BridgeClient) :
  send_movement_command direction c = true →
  is_connected c = true ∧ known_direction direction.
Proof.
  intros H. destruct (is_connected c) eqn:Hc.
  - split; [done|]. destruct (decide (known_direction direction)) as [|Hn]; [done|].
    by rewrite send_movement_command_unknown in H.
  - by rewrite send_movement_command_disconnected in H.
Qed.

(** [send_movement_command] succeeds exactly for a connected bridge and one
    of the five directions, spelled in lower case. *)
Theorem send_movement_command_true_iff (direction : string) (c : Ros2BridgeClient) :
  send_movement_command direction c = true
  ↔ is_connected c = true ∧ known_direction direction.
Proof.
  split.
  - apply send_movement_command_sent.
  - intros [Hc Hk]. by apply send_movement_command_known.
Qed.

Section MoveStatus.

Variable json_parse : string → option Json.

(** Every answer of POST /move is JSON with status 200, 400 or 500.  It is
    200 exactly when the body parses to an object whose "direction" is one of
    the five known strings and the bridge is connected; it is 500 exactly
    when the body parses to an object whose "direction" is a non-empty string
    and the command was not sent (unknown direction, or bridge not
    connected).  A malformed request never gets a 500. *)
Theorem move_status_characterised (body : string) (client : Ros2BridgeClient) :
  let r := handle_move json_parse body client in
  content_type r = "application/json" ∧
  (status r = 200 ∨ status r = 400 ∨ status r = 500) ∧
  (status r = 200 ↔
     ∃ o dir, json_parse body = Some (JObject o) ∧
              o !! "direction" = Some (JString dir) ∧
              known_direction dir ∧ is_connected client = true) ∧
  (status r = 500 ↔
     ∃ o dir, json_parse body = Some (JObject o) ∧
              o !! "direction" = Some (JString dir) ∧ dir ≠ "" ∧
              ¬ (known_direction dir ∧ is_connected client = true)).
Proof.
  intros r. unfold r, handle_move.
  destruct (json_parse body) as [payload|] eqn:Hp;
    [|simpl; split_and!; [done|auto|split; [done|by intros (?&?&?&_)]..]].
  destruct payload as [| | | | | | |o];
    try (simpl; split_and!; [done|auto|split; [done|by intros (?&?&?&_)]..]).
  simpl. destruct (o !! "direction") as [v|] eqn:Hd.
  - destruct v as [| | | | |dir| |];
      try (simpl; split_and!; [done|auto|split; [done|intros (?&?&[= <-]&?&_); congruence]..]).
    destruct (String.eqb_spec dir "") as [->|Hne].
    + simpl. split_and!; [done|auto| |].
      * split; [done|]. intros (o' & dir & [= <-] & Hd' & Hk & _).
        rewrite Hd in Hd'. injection Hd' as <-.
        unfold known_direction in Hk.
        repeat (apply elem_of_cons in Hk as [Hk|Hk]; [discriminate|]).
        by apply elem_of_nil in Hk.
      * split; [done|]. intros (o' & dir & [= <-] & Hd' & Hn & _). congruence.
    + destruct (send_movement_command dir client) eqn:Hs.
      * apply send_movement_command_sent in Hs as [Hc Hk].
        simpl. split_and!; [done|auto| |].
        -- split; [|done]. intros _. by exists o, dir.
        -- split; [done|]. intros (o' & dir' & [= <-] & Hd' & _ & Hn).
           rewrite Hd in Hd'. injection Hd' as <-. by destruct Hn.
      * simpl. split_and!; [done|auto| |].
        -- split; [done|]. intros (o' & dir' & [= <-] & Hd' & Hk & Hc).
           rewrite Hd in Hd'. injection Hd' as <-.
           by rewrite send_movement_command_known in Hs.
        -- split; [|done]. intros _. exists o, dir. split_and!; try done.
           intros [Hk Hc]. by rewrite send_movement_command_known in Hs.
  - simpl. split_and!; [done|auto| |].
    + split; [done|]. intros (o' & dir & [= <-] & Hd' & _). congruence.
    + split; [done|]. intros (o' & dir & [= <-] & Hd' & _). congruence.
Qed.

End MoveStatus.

(** The PATCH counts as made exactly when the transfer completed with a 2xx
    response code.  With any other outcome (no handle, a transport error, a
    code below 200 or from 300 up) a loop iteration that had a new phase to
    report leaves the stored phase as it was and the next iteration reports
    again. *)
Theorem patch_succeeds_only_on_2xx (t : Transfer) (b : Ros2BridgeClient) (w : World) :
  (patch_edgedevice_phase t = true
   ↔ curl_handle t = true ∧ perform_ok t = true ∧ 200 ≤ status_code t < 300) ∧
  (patch_edgedevice_phase t = false → candidate_phase b ≠ phase w →
   let w' := tick (mkTickEnv b (patch_edgedevice_phase t)) w in
   phase w' = phase w ∧
   reports w' = reports w ++ [(candidate_phase b, false)] ∧
   ∀ r, reports (tick (mkTickEnv b r) w') = reports w' ++ [(candidate_phase b, r)]).
Proof.
  split.
  - unfold patch_edgedevice_phase.
    destruct (curl_handle t), (perform_ok t); simpl; try (split; [done|by intros (?&?&?)]).
    destruct (Z.ltb_spec (status_code t) 200), (Z.leb_spec 300 (status_code t));
      simpl; split; try done; try lia; intros (_ & _ & ?); lia.
  - intros -> Hne. unfold tick. simpl.
    destruct (decide (phase w ≠ candidate_phase b)) as [|Heq]; [|by destruct Heq].
    simpl. split_and!; [done..|]. intros r.
    destruct (decide (phase w ≠ candidate_phase b)); done.
Qed.

Lemma acked_app (l1 l2 : list Report) : acked (l1 ++ l2) = acked l1 ++ acked l2.
Proof. apply omap_app. Qed.

Lemma no_repeat_chain (p q : string) (l1 l2 : list string) :
  no_repeat (p :: l1) → last (p :: l1) = Some q → no_repeat (q :: l2) →
  no_repeat (p :: l1 ++ l2).
Proof.
  revert p. induction l1 as [|a l1 IH]; intros p H1 Hl H2.
  - simpl in Hl. by injection Hl as ->.
  - destruct H1 as [Hpa H1]. split; [done|]. apply IH; [done| |done].
    by rewrite last_cons_cons in Hl.
Qed.

Lemma last_chain (p q : string) (l1 l2 : list string) :
  last (p :: l1) = Some q → last (p :: l1 ++ l2) = last (q :: l2).
Proof.
  revert p. induction l1 as [|a l1 IH]; intros p Hl.
  - simpl in Hl. by injection Hl as ->.
  - rewrite last_cons_cons in Hl. simpl app. rewrite last_cons_cons. by apply IH.
Qed.

Lemma loop_step_ledger (e : TickEnv) (w : World) :
  ∃ new, reports (loop_step e w) = reports w ++ new ∧
         last (phase w :: acked new) = Some (phase (loop_step e w)) ∧
         no_repeat (phase w :: acked new) ∧
         Forall (λ r : Report, r.1 = "Running" ∨ r.1 = "Pending") new.
Proof.
  unfold loop_step. destruct (pc w);
    try (exists []; rewrite app_nil_r; by destruct (running w)).
  unfold tick. destruct (decide (phase w ≠ candidate_phase (bridge e))) as [Hne|].
  - exists [(candidate_phase (bridge e), patch_result e)]. simpl.
    split_and!; [done| | |].
    + by destruct (patch_result e).
    + by destruct (patch_result e).
    + apply Forall_singleton. unfold candidate_phase. simpl.
      destruct (is_connected (bridge e)); auto.
  - exists []. simpl. by rewrite app_nil_r.
Qed.

(** Reporting is idempotent.  However long the loop runs and whatever the
    control plane answers, the stored phase is the last phase the control
    plane acknowledged (or the phase the loop started with), no phase is
    acknowledged twice in a row, and the loop only ever reports Running or
    Pending. *)
Theorem reports_are_idempotent (envs : list TickEnv) (w : World) :
  ∃ new, reports (update_phase_thread envs w) = reports w ++ new ∧
         last (phase w :: acked new) = Some (phase (update_phase_thread envs w)) ∧
         no_repeat (phase w :: acked new) ∧
         Forall (λ r : Report, r.1 = "Running" ∨ r.1 = "Pending") new.
Proof.
  revert w. induction envs as [|e envs IH]; intros w.
  - exists []. simpl. by rewrite app_nil_r.
  - destruct (loop_step_ledger e w) as (n1 & R1 & L1 & N1 & F1).
    destruct (IH (loop_step e w)) as (n2 & R2 & L2 & N2 & F2).
    change (update_phase_thread (e :: envs) w)
      with (update_phase_thread envs (loop_step e w)).
    exists (n1 ++ n2). rewrite R2, R1, acked_app. split_and!.
    + by rewrite app_assoc.
    + by rewrite (last_chain _ _ _ _ L1).
    + by eapply no_repeat_chain.
    + by apply Forall_app.
Qed.

Lemma loop_step_steady (e : TickEnv) (w : World) :
  candidate_phase (bridge e) = phase w →
  reports (loop_step e w) = reports w ∧ phase (loop_step e w) = phase w.
Proof.
  intros He. unfold loop_step. destruct (pc w); try by destruct (running w).
  unfold tick. rewrite He. by destruct (decide (phase w ≠ phase w)).
Qed.

(** While the candidate phase equals the stored phase the loop makes no
    PATCH at all, however long it runs. *)
Theorem loop_quiet_in_steady_state (envs : list TickEnv) (w : World) :
  Forall (λ e, candidate_phase (bridge e) = phase w) envs →
  reports (update_phase_thread envs w) = reports w ∧
  phase (update_phase_thread envs w) = phase w.
Proof.
  revert w. induction envs as [|e envs IH]; intros w Hall; [done|].
  apply Forall_cons in Hall as [He Hall].
  change (update_phase_thread (e :: envs) w)
    with (update_phase_thread envs (loop_step e w)).
  destruct (loop_step_steady e w He) as [Hr Hp].
  rewrite <- Hr, <- Hp. apply IH. by rewrite Hp.
Qed.

(** When the PATCH made at start-up fails, Running is stored all the same;
    the loop then finds the candidate equal to the stored phase and, as long
    as the bridge stays connected, never reports Running: the failed start-up
    report is not retried. *)
Theorem startup_report_failure_not_retried (device_address : string)
    (envs : list TickEnv) :
  device_address ≠ "" →
  Forall (λ e, is_connected (bridge e) = true) envs →
  ∃ client w, main_startup device_address false = inr (client, w) ∧
    is_connected client = true ∧ phase w = "Running" ∧
    reports w = [("Running", false)] ∧
    reports (update_phase_thread envs w) = [("Running", false)].
Proof.
  intros Hne Hall. unfold main_startup.
  destruct (String.eqb_spec device_address "") as [|_]; [done|]. simpl.
  eexists _, _. split; [reflexivity|]. split_and!; try done.
  assert (Hquiet : ∀ w, phase w = "Running" →
            reports (update_phase_thread envs w) = reports w).
  { induction Hall as [|e envs He _ IH]; intros w Hw; [done|].
    change (update_phase_thread (e :: envs) w)
      with (update_phase_thread envs (loop_step e w)).
    destruct (loop_step_steady e w) as [Hr Hp].
    { unfold candidate_phase. by rewrite He, Hw. }
    rewrite <- Hr. apply IH. by rewrite Hp. }
  by apply Hquiet.
Qed.

(** Start-up.  With no device name or namespace [main] exits with 1 and
    makes no PATCH.  Otherwise, when the instructions load and no exception
    is thrown: the loop is started exactly when the EdgeDevice could be
    fetched and its spec holds a non-empty string "address", and then one
    PATCH of Running has been made and Running is stored; in every other case
    [main] makes one PATCH of Unknown and exits with 1.  [main] never reports
    Failed. *)
Theorem main_start_outcomes (name ns port : string) (loaded : bool)
    (spec_t patch_t : Transfer) (r : (Z * World) + (Ros2BridgeClient * World)) :
  main_start name ns port loaded spec_t patch_t = Some r →
  let ok := patch_edgedevice_phase patch_t in
  (name = "" ∨ ns = "" → r = inl (1, initial_world)) ∧
  (name ≠ "" → ns ≠ "" →
     (∃ address, find_device_address spec_t = Some address ∧ address ≠ "" ∧
        r = inr ((connect (new_client address)).2,
                 {| running := true; phase := "Running";
                    reports := [("Running", ok)]; pc := AtCheck |})) ∨
     (find_device_address spec_t = Some "" ∧
        r = inl (1, main_patch "Unknown" ok initial_world))) ∧
  match r with
  | inl (_, w) | inr (_, w) => Forall (λ rep : Report, rep.1 ≠ "Failed") (reports w)
  end.
Proof.
  unfold main_start. destruct (stoi port); [|done].
  destruct (String.eqb_spec name "") as [->|Hn]; simpl.
  { intros [= <-]. split_and!; [done|done|apply Forall_nil_2]. }
  destruct (String.eqb_spec ns "") as [->|Hs]; simpl.
  { intros [= <-]. split_and!; [done|done|apply Forall_nil_2]. }
  destruct loaded; [|done]. simpl.
  destruct (find_device_address spec_t) as [address|]; [|done]. simpl.
  intros [= <-]. unfold main_startup.
  destruct (String.eqb_spec address "") as [->|Ha]; simpl.
  - split_and!; [by intros [|]|by right|]. by apply Forall_singleton.
  - split_and!; [by intros [|]|left; by exists address|]. by apply Forall_singleton.
Qed.

Lemma loop_quiet_in_steady_state_witness :
  let e := {| bridge := connected_client; patch_result := false |} in
  let w := {| running := true; phase := "Running"; reports := [("Running", true)];
              pc := AtCheck |} in
  Forall (λ e, candidate_phase (bridge e) = phase w) [e; e; e; e] ∧
  reports (update_phase_thread [e; e; e; e] w) = reports w ∧
  phase (update_phase_thread [e; e; e; e] w) = phase w.
Proof.
  intros e w.
  assert (H : Forall (λ e, candidate_phase (bridge e) = phase w) [e; e; e; e])
    by (repeat constructor).
  split; [exact H|]. exact (loop_quiet_in_steady_state [e; e; e; e] w H).
Defined.

Lemma startup_report_failure_not_retried_witness :
  let e := {| bridge := connected_client; patch_result := true |} in
  "ws://robot" ≠ "" ∧
  Forall (λ e, is_connected (bridge e) = true) [e; e; e] ∧
  ∃ client w, main_startup "ws://robot" false = inr (client, w) ∧
    is_connected client = true ∧ phase w = "Running" ∧
    reports w = [("Running", false)] ∧
    reports (update_phase_thread [e; e; e] w) = [("Running", false)].
Proof.
  intros e.
  assert (H1 : "ws://robot" ≠ "") by discriminate.
  assert (H2 : Forall (λ e, is_connected (bridge e) = true) [e; e; e])
    by (repeat constructor).
  split; [exact H1|]. split; [exact H2|].
  exact (startup_report_failure_not_retried "ws://robot" [e; e; e] H1 H2).
Defined.

(** A fetch that brings an EdgeDevice with an address, and a PATCH answered
    with 503. *)
Definition fetched_device : Transfer :=
  {| curl_handle := true; perform_ok := true; status_code := 200;
     response := Some (JObject {[ "spec" := JObject {[ "address" := JString "ws://robot" ]} ]}) |}.

Definition patch_unavailable : Transfer :=
  {| curl_handle := true; perform_ok := true; status_code := 503; response := None |}.

Lemma main_start_outcomes_witness :
  let r : (Z * World) + (Ros2BridgeClient * World) :=
    inr (connected_client,
         {| running := true; phase := "Running"; reports := [("Running", false)];
            pc := AtCheck |}) in
  main_start "robot-1" "devices" "8080" true fetched_device patch_unavailable = Some r ∧
  ((∃ address, find_device_address fetched_device = Some address ∧ address ≠ "" ∧
      r = inr ((connect (new_client address)).2,
               {| running := true; phase := "Running";
                  reports := [("Running", patch_edgedevice_phase patch_unavailable)];
                  pc := AtCheck |})) ∨
   (find_device_address fetched_device = Some "" ∧
      r = inl (1, main_patch "Unknown" (patch_edgedevice_phase patch_unavailable)
                    initial_world))).
Proof.
  intros r.
  assert (H : main_start "robot-1" "devices" "8080" true fetched_device patch_unavailable
              = Some r) by reflexivity.
  split; [exact H|].
  destruct (main_start_outcomes _ _ _ _ _ _ r H) as (_ & H2 & _).
  apply H2; discriminate.
Defined.

(** Start-up without an address, and one that an exception ends. *)
Example main_start_without_spec :
  main_start "robot-1" "devices" "8080" true
    {| curl_handle := true; perform_ok := true; status_code := 404;
       response := Some (JObject {[ "kind" := JString "Status" ]}) |}
    patch_unavailable
  = Some (inl (1, main_patch "Unknown" false initial_world)).
Proof. reflexivity. Qed.

Example main_start_bad_port :
  main_start "robot-1" "devices" "http" true fetched_device patch_unavailable = None.
Proof. reflexivity. Qed.

Example main_start_address_not_a_string :
  main_start "robot-1" "devices" "8080" true
    {| curl_handle := true; perform_ok := true; status_code := 200;
       response := Some (JObject {[ "spec" := JObject {[ "address" := JInt 7 ]} ]}) |}
    patch_unavailable
  = None.
Proof. reflexivity. Qed.

End Ros2Driver.

(** * Threads and a mutex

    Threads that each run one critical section under the same
    [std::mutex]: a thread waits in [lock()] until the mutex is free, takes
    it, runs the steps of its critical section one at a time (each step reads
    and writes the shared state and the thread's own local state), and
    releases it.  A schedule says which thread moves next; a thread told to
    move while it is blocked in [lock()] stays where it is. *)

Section Mutex.

Context {St Lc : Type}.

Definition Step : Type := St → Lc → St * Lc.

Inductive Pc : Type :=
| Waiting
| Inside (rest : list Step)
| Finished.

Record Thread : Type := mkThread {
  th_body : list Step;
  th_pc : Pc;
  th_loc : Lc
}.

Record Config : Type := mkConfig {
  shared : St;
  holder : option nat;
  threads : list Thread
}.

Definition run_cs (steps : list Step) (x : St * Lc) : St * Lc :=
  foldl (λ x s, s x.1 x.2) x steps.

Definition step_thread (i : nat) (c : Config) : Config :=
  match threads c !! i with
  | None => c
  | Some t =>
      match th_pc t with
      | Waiting =>
          match holder c with
          | None =>
              mkConfig (shared c) (Some i)
                (<[ i := mkThread (th_body t) (Inside (th_body t)) (th_loc t) ]> (threads c))
          | Some _ => c
          end
      | Inside [] =>
          mkConfig (shared c) None
            (<[ i := mkThread (th_body t) Finished (th_loc t) ]> (threads c))
      | Inside (s :: rest) =>
          let r := s (shared c) (th_loc t) in
          mkConfig r.1 (holder c)
            (<[ i := mkThread (th_body t) (Inside rest) r.2 ]> (threads c))
      | Finished => c
      end
  end.

Definition run_schedule (sched : list nat) (c : Config) : Config :=
  foldl (λ c i, step_thread i c) c sched.

Definition spawn (body : list Step) (l0 : Lc) : Thread := mkThread body Waiting l0.

Definition finished (t : Thread) : bool :=
  match th_pc t with Finished => true | _ => false end.

Definition serial (ths0 : list Thread) (sh0 : St) (order : list nat) : St :=
  foldl (λ sh i, match ths0 !! i with
                 | Some t0 => (run_cs (th_body t0) (sh, th_loc t0)).1
                 | None => sh
                 end) sh0 order.

Variable ths0 : list Thread.
Variable sh0 : St.

Definition thread_inv (order : list nat) (c : Config) (i : nat) (t0 t : Thread) : Prop :=
  th_body t = th_body t0 ∧
  match th_pc t with
  | Waiting => th_loc t = th_loc t0 ∧ i ∉ order
  | Inside rest =>
      holder c = Some i ∧ (i ∉ order) ∧
      (∃ pre, th_body t0 = pre ++ rest ∧
              run_cs pre (serial ths0 sh0 order, th_loc t0) = (shared c, th_loc t))
  | Finished =>
      ∃ before after, order = before ++ i :: after ∧
        th_loc t = (run_cs (th_body t0) (serial ths0 sh0 before, th_loc t0)).2
  end.

Definition inv (order : list nat) (c : Config) : Prop :=
  NoDup order ∧
  length (threads c) = length ths0 ∧
  (∀ i t0, ths0 !! i = Some t0 →
     ∃ t, threads c !! i = Some t ∧ thread_inv order c i t0 t) ∧
  (holder c = None → shared c = serial ths0 sh0 order) ∧
  (∀ h, holder c = Some h →
     ∃ t rest, threads c !! h = Some t ∧ th_pc t = Inside rest).

Lemma run_cs_snoc (steps : list Step) (s : Step) (x : St * Lc) :
  run_cs (steps ++ [s]) x = s (run_cs steps x).1 (run_cs steps x).2.
Proof. unfold run_cs. by rewrite foldl_app. Qed.

Lemma serial_snoc (order : list nat) (i : nat) (t0 : Thread) :
  ths0 !! i = Some t0 →
  serial ths0 sh0 (order ++ [i])
  = (run_cs (th_body t0) (serial ths0 sh0 order, th_loc t0)).1.
Proof. intros H. unfold serial. rewrite foldl_app. simpl. by rewrite H. Qed.

Lemma serial_snoc_none (order : list nat) (i : nat) :
  ths0 !! i = None → serial ths0 sh0 (order ++ [i]) = serial ths0 sh0 order.
Proof. intros H. unfold serial. rewrite foldl_app. simpl. by rewrite H. Qed.

Lemma inv_step (i : nat) (order : list nat) (c : Config) :
  inv order c → ∃ order', inv (order ++ order') (step_thread i c).
Proof.
  intros (Hnd & Hlen & Hth & Hfree & Hheld).
  unfold step_thread.
  destruct (threads c !! i) as [t|] eqn:Hi;
    [|exists []; rewrite app_nil_r; by split_and!].
  assert (Hi0 : ∃ t0, ths0 !! i = Some t0).
  { apply lookup_lt_is_Some. rewrite <- Hlen. by eapply lookup_lt_Some. }
  destruct Hi0 as [t0 Hi0].
  destruct (Hth i t0 Hi0) as (t' & Hi' & Hbody & Hpc).
  rewrite Hi in Hi'. injection Hi' as <-.
  destruct (th_pc t) as [|[|s rest]|] eqn:Hpct.
  - (* lock *)
    destruct (holder c) as [h|] eqn:Hh;
      [exists []; rewrite app_nil_r; split_and!; try done; by rewrite Hh|].
    destruct Hpc as [Hloc Hnotin].
    exists []. rewrite app_nil_r. split_and!; simpl; try done.
    + by rewrite length_insert.
    + intros j tj0 Hj0. destruct (decide (j = i)) as [->|Hne].
      * rewrite list_lookup_insert_eq by (by eapply lookup_lt_Some).
        assert (tj0 = t0) as -> by congruence.
        eexists. split; [done|]. split; [done|]. simpl.
        split_and!; try done. exists []. split; [done|].
        simpl. rewrite Hfree by done. by rewrite Hloc.
      * rewrite list_lookup_insert_ne by done.
        destruct (Hth j tj0 Hj0) as (tj & Hj & Hbj & Hpj).
        exists tj. split; [done|]. split; [done|].
        destruct (th_pc tj); try done.
        destruct Hpj as [Hc _]. simpl in Hc. congruence.
    + intros h [= <-]. rewrite list_lookup_insert_eq by (by eapply lookup_lt_Some).
      by eexists _, _.
  - (* unlock *)
    destruct Hpc as (Hh & Hnotin & pre & Hpre & Hrun).
    rewrite app_nil_r in Hpre. subst pre.
    exists [i]. split_and!; simpl.
    + apply NoDup_app. split_and!; [done| |apply NoDup_singleton].
      intros x Hx ->%list_elem_of_singleton. done.
    + by rewrite length_insert.
    + intros j tj0 Hj0. destruct (decide (j = i)) as [->|Hne].
      * rewrite list_lookup_insert_eq by (by eapply lookup_lt_Some).
        assert (tj0 = t0) as -> by congruence.
        eexists. split; [done|]. split; [done|]. simpl.
        exists order, []. split; [done|]. by rewrite Hrun.
      * rewrite list_lookup_insert_ne by done.
        destruct (Hth j tj0 Hj0) as (tj & Hj & Hbj & Hpj).
        exists tj. split; [done|]. split; [done|].
        destruct (th_pc tj).
        -- destruct Hpj as [? ?]. split; [done|].
           intros [?|?%list_elem_of_singleton]%elem_of_app; done.
        -- destruct Hpj as [Hc _]. congruence.
        -- destruct Hpj as (b & a & -> & Hl). exists b, (a ++ [i]).
           split; [by rewrite <- app_assoc|done].
    + intros _. rewrite (serial_snoc order i t0 Hi0), Hrun. done.
    + done.
  - (* one step inside *)
    destruct Hpc as (Hh & Hnotin & pre & Hpre & Hrun).
    exists []. rewrite app_nil_r. split_and!; simpl; try done.
    + by rewrite length_insert.
    + intros j tj0 Hj0. destruct (decide (j = i)) as [->|Hne].
      * rewrite list_lookup_insert_eq by (by eapply lookup_lt_Some).
        assert (tj0 = t0) as -> by congruence.
        eexists. split; [done|]. split; [done|]. simpl.
        split_and!; try done. exists (pre ++ [s]).
        split; [by rewrite Hpre, <- app_assoc|].
        rewrite run_cs_snoc, Hrun. simpl. by destruct (s _ _).
      * rewrite list_lookup_insert_ne by done.
        destruct (Hth j tj0 Hj0) as (tj & Hj & Hbj & Hpj).
        exists tj. split; [done|]. split; [done|].
        destruct (th_pc tj); try done.
        destruct Hpj as [Hc _]. simpl in Hc. congruence.
    + intros Hc. congruence.
    + intros h Hhh. destruct (Hheld h Hhh) as (th & r & Hlh & Hph).
      destruct (decide (h = i)) as [->|Hne].
      * rewrite list_lookup_insert_eq by (by eapply lookup_lt_Some).
        by eexists _, _.
      * rewrite list_lookup_insert_ne by done. by eexists _, _.
  - exists []. rewrite app_nil_r. by split_and!.
Qed.


Lemma inv_run (sched : list nat) (order : list nat) (c : Config) :
  inv order c → ∃ order', inv (order ++ order') (run_schedule sched c).
Proof.
  revert order c. induction sched as [|i sched IH]; intros order c Hinv.
  - exists []. by rewrite app_nil_r.
  - destruct (inv_step i order c Hinv) as [o1 H1].
    destruct (IH _ _ H1) as [o2 H2].
    exists (o1 ++ o2). by rewrite app_assoc.
Qed.

Definition initial_config : Config := mkConfig sh0 None ths0.

Lemma inv_init :
  Forall (λ t, th_pc t = Waiting) ths0 → inv [] initial_config.
Proof.
  intros Hw. split_and!; simpl; try done; [apply NoDup_nil_2|].
  intros i t0 Hi. exists t0. split; [done|]. split; [done|].
  rewrite (proj1 (Forall_lookup _ _) Hw i t0 Hi). split; [done|].
  apply not_elem_of_nil.
Qed.

(** Mutual exclusion makes critical sections atomic: the local state with
    which a thread leaves its critical section is the one it would have
    computed by running the section alone, on the shared state left by the
    critical sections of some other threads run one after the other. *)
Lemma critical_sections_atomic (sched : list nat) (i : nat) (t0 t : Thread) :
  Forall (λ t, th_pc t = Waiting) ths0 →
  ths0 !! i = Some t0 →
  threads (run_schedule sched initial_config) !! i = Some t →
  th_pc t = Finished →
  ∃ before, NoDup before ∧ (i ∉ before) ∧
    th_loc t = (run_cs (th_body t0) (serial ths0 sh0 before, th_loc t0)).2.
Proof.
  intros Hw Hi0 Hi Hfin.
  destruct (inv_run sched [] initial_config (inv_init Hw)) as [order Hinv].
  simpl in Hinv. destruct Hinv as (Hnd & _ & Hth & _).
  destruct (Hth i t0 Hi0) as (t' & Hi' & _ & Hpc).
  rewrite Hi in Hi'. injection Hi' as <-. rewrite Hfin in Hpc.
  destruct Hpc as (before & after & -> & Hloc).
  exists before. apply NoDup_app in Hnd as (Hb & Hni & _).
  split_and!; [done| |done].
  intros Hin. apply (Hni i Hin). by left.
Qed.

(** A thread inside its critical section, given the processor, finishes the
    section and releases the lock, leaving the other threads as they are. *)
Lemma run_own_section (i : nat) (rest : list Step) (c : Config) (t : Thread) :
  threads c !! i = Some t → th_pc t = Inside rest →
  let c' := run_schedule (replicate (S (length rest)) i) c in
  holder c' = None ∧
  (∃ t', threads c' !! i = Some t' ∧ th_pc t' = Finished) ∧
  ∀ j, j ≠ i → threads c' !! j = threads c !! j.
Proof.
  revert c t. induction rest as [|s rest IH]; intros c t Hi Hpc.
  - simpl. unfold step_thread. rewrite Hi, Hpc. simpl.
    assert (i < length (threads c))%nat by (by eapply lookup_lt_Some).
    split_and!; [done| |].
    + rewrite list_lookup_insert_eq by done. by eexists.
    + intros j Hj. by rewrite list_lookup_insert_ne.
  - assert (i < length (threads c))%nat by (by eapply lookup_lt_Some).
    change (replicate (S (length (s :: rest))) i)
      with (i :: replicate (S (length rest)) i).
    change (run_schedule (i :: ?l) c) with (run_schedule l (step_thread i c)).
    set (c1 := step_thread i c).
    assert (Hc1 : threads c1 !! i
                  = Some (mkThread (th_body t) (Inside rest)
                            (s (shared c) (th_loc t)).2)
                  ∧ ∀ j, j ≠ i → threads c1 !! j = threads c !! j).
    { unfold c1, step_thread. rewrite Hi, Hpc. simpl. split.
      - by rewrite list_lookup_insert_eq.
      - intros j Hj. by rewrite list_lookup_insert_ne. }
    destruct Hc1 as [Hc1 Hc1'].
    destruct (IH c1 _ Hc1 eq_refl) as (Hh & Ht & Hoth).
    split_and!; [done..|]. intros j Hj. by rewrite Hoth, Hc1'.
Qed.

(** No deadlock: from any configuration that a schedule can reach, any
    thread can be run to the end of its critical section. *)
Lemma can_finish (order : list nat) (c : Config) (i : nat) (t0 : Thread) :
  inv order c → ths0 !! i = Some t0 →
  ∃ more t, threads (run_schedule more c) !! i = Some t ∧ th_pc t = Finished.
Proof.
  intros Hinv Hi0.
  assert (Hfree : ∀ c1 t1, holder c1 = None → threads c1 !! i = Some t1 →
            th_pc t1 ≠ Finished → (∀ r, th_pc t1 ≠ Inside r) →
            ∃ more t, threads (run_schedule more c1) !! i = Some t
                      ∧ th_pc t = Finished).
  { intros c1 t1 Hh Ht1 Hnf Hni.
    destruct (th_pc t1) as [|r|] eqn:Hpc1; [|by destruct (Hni r)|done].
    assert (i < length (threads c1))%nat by (by eapply lookup_lt_Some).
    set (c2 := step_thread i c1).
    assert (Hc2 : threads c2 !! i
                  = Some (mkThread (th_body t1) (Inside (th_body t1)) (th_loc t1))).
    { unfold c2, step_thread. rewrite Ht1, Hpc1, Hh. simpl.
      by rewrite list_lookup_insert_eq. }
    destruct (run_own_section i _ c2 _ Hc2 eq_refl) as (_ & (t' & Ht' & Hf) & _).
    exists (i :: replicate (S (length (th_body t1))) i), t'. done. }
  destruct Hinv as (_ & _ & Hth & _ & Hheld).
  destruct (Hth i t0 Hi0) as (t & Hi & _ & Hpc).
  destruct (th_pc t) as [|r|] eqn:Hpct.
  - destruct (holder c) as [h|] eqn:Hh.
    + destruct (Hheld h eq_refl) as (th & rh & Hlh & Hph).
      assert (h ≠ i) by (intros ->; congruence).
      destruct (run_own_section h rh c th Hlh Hph) as (Hnone & _ & Hoth).
      destruct (Hfree _ t Hnone) as (more & t' & Ht' & Hf);
        [by rewrite Hoth|congruence|congruence|].
      exists (replicate (S (length rh)) h ++ more), t'.
      unfold run_schedule in *. by rewrite foldl_app.
    + apply (Hfree c t); [done..|congruence|congruence].
  - destruct (run_own_section i r c t Hi Hpct) as (_ & (t' & Ht' & Hf) & _).
    by eexists _, t'.
  - exists [], t. done.
Qed.

Lemma can_always_finish (sched : list nat) (i : nat) (t0 : Thread) :
  Forall (λ t, th_pc t = Waiting) ths0 →
  ths0 !! i = Some t0 →
  ∃ more t, threads (run_schedule (sched ++ more) initial_config) !! i = Some t
            ∧ th_pc t = Finished.
Proof.
  intros Hw Hi0.
  destruct (inv_run sched [] initial_config (inv_init Hw)) as [order Hinv].
  destruct (can_finish _ _ i t0 Hinv Hi0) as (more & t & Ht & Hf).
  exists more, t. unfold run_schedule in *. by rewrite foldl_app.
Qed.

End Mutex.

Arguments Thread : clear implicits.
Arguments Config : clear implicits.
Arguments Step : clear implicits.

(** * The ROS 1 robot driver (telemetry cache, HTTP /status and /move) *)

Module RosRobot.

(** ** Messages (the members the driver reads) *)

Record Vec3 : Type := mkVec3 { vx : float; vy : float; vz : float }.
Record Quat : Type := mkQuat { qx : float; qy : float; qz : float; qw : float }.

(** [nav_msgs::Odometry]: [pose.pose.position], [pose.pose.orientation],
    [twist.twist.linear], [twist.twist.angular]. *)
Record Odometry : Type := mkOdometry {
  pose_position : Vec3;
  pose_orientation : Quat;
  twist_linear : Vec3;
  twist_angular : Vec3
}.

(** [sensor_msgs::Imu]. *)
Record Imu : Type := mkImu {
  imu_orientation : Quat;
  angular_velocity : Vec3;
  linear_acceleration : Vec3
}.

(** [sensor_msgs::LaserScan]; its [float32] members are held as doubles. *)
Record LaserScan : Type := mkLaserScan {
  ranges : list float;
  angle_min : float;
  angle_max : float;
  angle_increment : float;
  time_increment : float;
  scan_time : float;
  range_min : float;
  range_max : float
}.

(** [sensor_msgs::Image]; [data] is the byte vector. *)
Record Image : Type := mkImage {
  width : Z;
  height : Z;
  encoding : string;
  step : Z;
  data : list Byte.byte
}.

(** [geometry_msgs::Twist]. *)
Record Twist : Type := mkTwist { linear : Vec3; angular : Vec3 }.

Definition zero3 : Vec3 := mkVec3 0 0 0.
Definition zero4 : Quat := mkQuat 0 0 0 0.
Definition default_Odometry : Odometry := mkOdometry zero3 zero4 zero3 zero3.
Definition default_Imu : Imu := mkImu zero4 zero3 zero3.
Definition default_LaserScan : LaserScan := mkLaserScan [] 0 0 0 0 0 0 0.
Definition default_Image : Image := mkImage 0 0 "" 0 [].
Definition default_Twist : Twist := mkTwist zero3 zero3.

(** ** The telemetry cache [g_status] *)

Record RobotStatus : Type := mkRobotStatus {
  battery : float;
  odom : Odometry;
  imu : Imu;
  lidar : LaserScan;
  camera : Image;
  odom_ready : bool;
  imu_ready : bool;
  lidar_ready : bool;
  camera_ready : bool;
  battery_ready : bool
}.

(** The default member initialisers of [struct RobotStatus]. *)
Definition initial_status : RobotStatus :=
  mkRobotStatus 0 default_Odometry default_Imu default_LaserScan default_Image
    false false false false false.

(** The subscriber callbacks. *)
Definition battery_cb (msg_data : float) (g : RobotStatus) : RobotStatus :=
  mkRobotStatus msg_data (odom g) (imu g) (lidar g) (camera g)
    (odom_ready g) (imu_ready g) (lidar_ready g) (camera_ready g) true.

Definition odom_cb (msg : Odometry) (g : RobotStatus) : RobotStatus :=
  mkRobotStatus (battery g) msg (imu g) (lidar g) (camera g)
    true (imu_ready g) (lidar_ready g) (camera_ready g) (battery_ready g).

Definition imu_cb (msg : Imu) (g : RobotStatus) : RobotStatus :=
  mkRobotStatus (battery g) (odom g) msg (lidar g) (camera g)
    (odom_ready g) true (lidar_ready g) (camera_ready g) (battery_ready g).

Definition lidar_cb (msg : LaserScan) (g : RobotStatus) : RobotStatus :=
  mkRobotStatus (battery g) (odom g) (imu g) msg (camera g)
    (odom_ready g) (imu_ready g) true (camera_ready g) (battery_ready g).

Definition camera_cb (msg : Image) (g : RobotStatus) : RobotStatus :=
  mkRobotStatus (battery g) (odom g) (imu g) (lidar g) msg
    (odom_ready g) (imu_ready g) (lidar_ready g) true (battery_ready g).

(** The telemetry channels and their keys in the status document. *)
Inductive Channel : Type := Battery | OdometryCh | ImuCh | LidarCh | CameraCh.

#[local] Instance Channel_eq_dec : EqDecision Channel.
Proof. solve_decision. Defined.

Definition channel_key (c : Channel) : string :=
  match c with
  | Battery => "battery"
  | OdometryCh => "odometry"
  | ImuCh => "imu"
  | LidarCh => "lidar"
  | CameraCh => "camera"
  end.

Definition ready (c : Channel) (g : RobotStatus) : bool :=
  match c with
  | Battery => battery_ready g
  | OdometryCh => odom_ready g
  | ImuCh => imu_ready g
  | LidarCh => lidar_ready g
  | CameraCh => camera_ready g
  end.

(** One delivery of a message to its callback. *)
Inductive Update : Type :=
| UBattery (msg_data : float)
| UOdom (msg : Odometry)
| UImu (msg : Imu)
| ULidar (msg : LaserScan)
| UCamera (msg : Image).

Definition update_channel (u : Update) : Channel :=
  match u with
  | UBattery _ => Battery
  | UOdom _ => OdometryCh
  | UImu _ => ImuCh
  | ULidar _ => LidarCh
  | UCamera _ => CameraCh
  end.

Definition apply_update (u : Update) (g : RobotStatus) : RobotStatus :=
  match u with
  | UBattery d => battery_cb d g
  | UOdom m => odom_cb m g
  | UImu m => imu_cb m g
  | ULidar m => lidar_cb m g
  | UCamera m => camera_cb m g
  end.

(** ** GET /status *)

(** A statement of the handler: the assignments it makes, given [g_status]
    as it is when the statement runs. *)
Definition Stmt : Type := RobotStatus → list Assign.

(** [root[p1]...[pn] = rhs;] *)
Definition assign (path : list string) (rhs : RobotStatus → Json) : Stmt :=
  λ g, [ASet path (rhs g)].

(** Line 176. *)
Definition battery_stmt : Stmt :=
  assign ["battery"] (λ g, if battery_ready g then JReal (battery g) else JNull).

(** Lines 181-193, with [o = g_status.odom]. *)
Definition odom_stmts : list Stmt :=
  [ assign ["odometry"; "x"] (λ g, JReal (vx (pose_position (odom g))));
    assign ["odometry"; "y"] (λ g, JReal (vy (pose_position (odom g))));
    assign ["odometry"; "z"] (λ g, JReal (vz (pose_position (odom g))));
    assign ["odometry"; "orientation"; "x"] (λ g, JReal (qx (pose_orientation (odom g))));
    assign ["odometry"; "orientation"; "y"] (λ g, JReal (qy (pose_orientation (odom g))));
    assign ["odometry"; "orientation"; "z"] (λ g, JReal (qz (pose_orientation (odom g))));
    assign ["odometry"; "orientation"; "w"] (λ g, JReal (qw (pose_orientation (odom g))));
    assign ["odometry"; "linear"; "x"] (λ g, JReal (vx (twist_linear (odom g))));
    assign ["odometry"; "linear"; "y"] (λ g, JReal (vy (twist_linear (odom g))));
    assign ["odometry"; "linear"; "z"] (λ g, JReal (vz (twist_linear (odom g))));
    assign ["odometry"; "angular"; "x"] (λ g, JReal (vx (twist_angular (odom g))));
    assign ["odometry"; "angular"; "y"] (λ g, JReal (vy (twist_angular (odom g))));
    assign ["odometry"; "angular"; "z"] (λ g, JReal (vz (twist_angular (odom g)))) ].

(** Lines 198-207, with [i = g_status.imu]. *)
Definition imu_stmts : list Stmt :=
  [ assign ["imu"; "orientation"; "x"] (λ g, JReal (qx (imu_orientation (imu g))));
    assign ["imu"; "orientation"; "y"] (λ g, JReal (qy (imu_orientation (imu g))));
    assign ["imu"; "orientation"; "z"] (λ g, JReal (qz (imu_orientation (imu g))));
    assign ["imu"; "orientation"; "w"] (λ g, JReal (qw (imu_orientation (imu g))));
    assign ["imu"; "angular_velocity"; "x"] (λ g, JReal (vx (angular_velocity (imu g))));
    assign ["imu"; "angular_velocity"; "y"] (λ g, JReal (vy (angular_velocity (imu g))));
    assign ["imu"; "angular_velocity"; "z"] (λ g, JReal (vz (angular_velocity (imu g))));
    assign ["imu"; "linear_acceleration"; "x"] (λ g, JReal (vx (linear_acceleration (imu g))));
    assign ["imu"; "linear_acceleration"; "y"] (λ g, JReal (vy (linear_acceleration (imu g))));
    assign ["imu"; "linear_acceleration"; "z"] (λ g, JReal (vz (linear_acceleration (imu g)))) ].

(** Line 212: [for (float r : l.ranges) root["lidar"]["ranges"].append(r);] *)
Definition lidar_ranges_stmt : Stmt :=
  λ g, map (λ r, AAppend ["lidar"; "ranges"] (JReal r)) (ranges (lidar g)).

(** Lines 212-219, with [l = g_status.lidar]. *)
Definition lidar_stmts : list Stmt :=
  [ lidar_ranges_stmt;
    assign ["lidar"; "angle_min"] (λ g, JReal (angle_min (lidar g)));
    assign ["lidar"; "angle_max"] (λ g, JReal (angle_max (lidar g)));
    assign ["lidar"; "angle_increment"] (λ g, JReal (angle_increment (lidar g)));
    assign ["lidar"; "time_increment"] (λ g, JReal (time_increment (lidar g)));
    assign ["lidar"; "scan_time"] (λ g, JReal (scan_time (lidar g)));
    assign ["lidar"; "range_min"] (λ g, JReal (range_min (lidar g)));
    assign ["lidar"; "range_max"] (λ g, JReal (range_max (lidar g))) ].

(** Lines 224-228, with [c = g_status.camera]. *)
Definition camera_stmts : list Stmt :=
  [ assign ["camera"; "width"] (λ g, JUInt (width (camera g)));
    assign ["camera"; "height"] (λ g, JUInt (height (camera g)));
    assign ["camera"; "encoding"] (λ g, JString (encoding (camera g)));
    assign ["camera"; "step"] (λ g, JUInt (step (camera g)));
    assign ["camera"; "data_len"] (λ g, JUInt (Z.of_nat (length (data (camera g))))) ].

(** The statements inside [if (g_status.<channel>_ready) { ... }]. *)
Definition block (c : Channel) : list Stmt :=
  match c with
  | Battery => []
  | OdometryCh => odom_stmts
  | ImuCh => imu_stmts
  | LidarCh => lidar_stmts
  | CameraCh => camera_stmts
  end.

(** The channels that have an [if] block, in source order. *)
Definition guarded_channels : list Channel := [OdometryCh; ImuCh; LidarCh; CameraCh].

(** The assignments of a list of statements, all run in state [g]. *)
Definition stmts_at (g : RobotStatus) (l : list Stmt) : list Assign :=
  concat (map (λ s, s g) l).

(** [handle_status] with [g_status = g]: the document handed to
    [http_send_json] ([None] if the JSON library raised). *)
Definition handle_status (g : RobotStatus) : option Json :=
  apply_all
    (battery_stmt g
     ++ concat (map (λ c, if ready c g then stmts_at g (block c) else [])
                    guarded_channels))
    (Some JNull).

(** What a channel's block alone makes of the cached value: the node it
    builds under the channel's key. *)
Definition channel_doc (c : Channel) (g : RobotStatus) : option Json :=
  match c with
  | Battery => Some (JReal (battery g))
  | _ =>
      match apply_all (stmts_at g (block c)) (Some JNull) with
      | Some (JObject m) => m !! channel_key c
      | _ => None
      end
  end.

(** What the snapshot shows of a channel that is not ready: battery is
    present with value null, the others are left out. *)
Definition absent_doc (c : Channel) : option Json :=
  match c with Battery => Some JNull | _ => None end.

(** What a snapshot of state [g] shows of channel [c]. *)
Definition channel_view (c : Channel) (g : RobotStatus) : option Json :=
  if ready c g then channel_doc c g else absent_doc c.

(** ** POST /move *)

(** What a handler sends back: [http_send_json] (200 OK, the document) or
    [http_error] (the code and the plain-text message). *)
Inductive HttpReply : Type :=
| ReplyJson (doc : Json)
| ReplyError (code : Z) (msg : string).

(** A message handed to a ROS publisher, with the topic it was advertised
    on in [main]. *)
Definition Published : Type := string * Twist.

Definition CMD_VEL : string := "/cmd_vel".

Section Move.

(** [Json::Reader::parse]: [None] when it returns false. *)
Variable reader_parse : string → option Json.

(** [handle_move]: what is sent back ([None] when a jsoncpp call raised and
    the handler was left by the exception) and what was published on
    [g_move_pub]. *)
Definition handle_move (body : string) : option HttpReply * list Published :=
  match reader_parse body with
  | None => (Some (ReplyError 400 "Invalid JSON"), [])
  | Some req =>
      match isMember "linear" req with
      | None => (None, [])
      | Some has_linear =>
          match (if has_linear then isMember "angular" req else Some false) with
          | None => (None, [])
          | Some has_both =>
              if negb has_both then
                (Some (ReplyError 400 "Missing 'linear' or 'angular'"), [])
              else
                match member_or_null "linear" req ≫= asDouble,
                      member_or_null "angular" req ≫= asDouble with
                | Some linear, Some angular =>
                    let msg :=
                      mkTwist (mkVec3 linear 0 0) (mkVec3 0 0 angular) in
                    let resp :=
                      JObject (<[ "angular" := JReal angular ]>
                                (<[ "linear" := JReal linear ]>
                                  (<[ "status" := JString "ok" ]> ∅))) in
                    (Some (ReplyJson resp), [(CMD_VEL, msg)])
                | _, _ => (None, [])
                end
          end
      end
  end.

End Move.

(** ** The server as a whole *)

Record Server : Type := mkServer {
  g_status : RobotStatus;
  published : list Published;
  replies : list (option HttpReply)
}.

Definition initial_server : Server := mkServer initial_status [] [].

(** What happens to the process: a message arrives, or a request is served. *)
Inductive Event : Type :=
| EvUpdate (u : Update)
| EvStatus
| EvMove (body : string).

Definition run_event (reader_parse : string → option Json) (e : Event) (s : Server)
  : Server :=
  match e with
  | EvUpdate u => mkServer (apply_update u (g_status s)) (published s) (replies s)
  | EvStatus =>
      mkServer (g_status s) (published s)
        (replies s ++ [ReplyJson <$> handle_status (g_status s)])
  | EvMove body =>
      let r := handle_move reader_parse body in
      mkServer (g_status s) (published s ++ r.2) (replies s ++ [r.1])
  end.

Definition run_events (reader_parse : string → option Json) (evs : list Event)
    (s : Server) : Server :=
  foldl (λ acc e, run_event reader_parse e acc) s evs.

(** ** Facts about documents under construction *)

Definition path_of (a : Assign) : list string :=
  match a with ASet p _ | AAppend p _ => p end.

Lemma apply_all_app (l1 l2 : list Assign) (x : option Json) :
  apply_all (l1 ++ l2) x = apply_all l2 (apply_all l1 x).
Proof. apply foldl_app. Qed.

Lemma apply_all_None (l : list Assign) : apply_all l None = None.
Proof. induction l; simpl; auto. Qed.

(** What a statement does at the end of its path. *)
Definition leaf_action (a : Assign) : Json → option Json :=
  match a with
  | ASet _ v => λ _, Some v
  | AAppend _ v => json_append v
  end.

Lemma apply_assign_alter (a : Assign) (j : Json) :
  apply_assign a j = alter_path (leaf_action a) (path_of a) j.
Proof. by destruct a. Qed.

(** Statements that all go through member [k] build the node of [k] the same
    way whatever else the document holds: running them on an object without
    [k] grafts onto it the node they build from an empty document. *)
Lemma apply_all_graft (k : string) (l : list Assign) (m : gmap string Json) :
  Forall (λ a, ∃ p, path_of a = k :: p) l → l ≠ [] → m !! k = None →
  apply_all l (Some (JObject m))
  = match apply_all l (Some JNull) with
    | Some (JObject mk) => (λ d, JObject (<[ k := d ]> m)) <$> (mk !! k)
    | _ => None
    end.
Proof.
  intros Hall Hne Hk.
  assert (Hgo : ∀ l' d, Forall (λ a, ∃ p, path_of a = k :: p) l' →
            match apply_all l' (Some (JObject {[ k := d ]})) with
            | Some (JObject mk) =>
                apply_all l' (Some (JObject (<[ k := d ]> m)))
                = (λ d', JObject (<[ k := d' ]> m)) <$> (mk !! k)
            | Some _ => False
            | None => apply_all l' (Some (JObject (<[ k := d ]> m))) = None
            end).
  { induction l' as [|a l' IH]; intros d Hl'.
    - simpl. by rewrite lookup_singleton_eq.
    - apply Forall_cons in Hl' as [[p Hp] Hl']. simpl.
      rewrite !apply_assign_alter, Hp. simpl.
      rewrite lookup_singleton_eq, lookup_insert_eq. simpl.
      destruct (alter_path (leaf_action a) p d) as [child|]; simpl.
      + rewrite insert_insert_eq, insert_singleton_eq. by apply IH.
      + rewrite !apply_all_None. done. }
  destruct l as [|a l]; [done|].
  apply Forall_cons in Hall as [[p Hp] Hall]. simpl.
  rewrite !apply_assign_alter, Hp. simpl. rewrite Hk. simpl.
  destruct (alter_path (leaf_action a) p JNull) as [child|]; simpl.
  - specialize (Hgo l child Hall).
    change (<[k:=child]> (∅ : gmap string Json)) with ({[ k := child ]} : gmap string Json).
    destruct (apply_all l (Some (JObject {[ k := child ]}))) as [[]|]; done.
  - by rewrite !apply_all_None.
Qed.

(** The range loop on an empty document. *)
Lemma append_ranges (rs : list float) (l0 : list Json) :
  apply_all (map (λ r, AAppend ["lidar"; "ranges"] (JReal r)) rs)
    (Some (JObject {[ "lidar" := JObject {[ "ranges" := JArray l0 ]} ]}))
  = Some (JObject {[ "lidar" := JObject {[ "ranges" := JArray (l0 ++ map JReal rs) ]} ]}).
Proof.
  revert l0. induction rs as [|r rs IH]; intros l0.
  - simpl. by rewrite app_nil_r.
  - simpl. unfold append_path. simpl.
    rewrite lookup_singleton_eq. simpl. rewrite lookup_singleton_eq. simpl.
    rewrite !insert_singleton_eq. rewrite IH. by rewrite <- app_assoc.
Qed.

Lemma append_ranges_null (rs : list float) :
  apply_all (map (λ r, AAppend ["lidar"; "ranges"] (JReal r)) rs) (Some JNull)
  = Some match rs with
         | [] => JNull
         | _ => JObject {[ "lidar" := JObject {[ "ranges" := JArray (map JReal rs) ]} ]}
         end.
Proof.
  destruct rs as [|r rs]; [done|].
  simpl. exact (append_ranges rs [JReal r]).
Qed.

(** ** The status document *)

Lemma lidar_stmts_at (g : RobotStatus) :
  stmts_at g lidar_stmts
  = map (λ r, AAppend ["lidar"; "ranges"] (JReal r)) (ranges (lidar g))
    ++ stmts_at g (tail lidar_stmts).
Proof. reflexivity. Qed.

Lemma block_through_key (c : Channel) (g : RobotStatus) :
  Forall (λ a, ∃ p, path_of a = channel_key c :: p) (stmts_at g (block c)).
Proof.
  destruct c; try (simpl; repeat constructor; simpl; eauto; fail).
  simpl block. rewrite lidar_stmts_at. apply Forall_app. split.
  - apply Forall_fmap, Forall_true. simpl. eauto.
  - simpl. repeat constructor; simpl; eauto.
Qed.

Lemma block_not_empty (c : Channel) (g : RobotStatus) :
  c ≠ Battery → stmts_at g (block c) ≠ [].
Proof.
  destruct c; try done. intros _. simpl block. rewrite lidar_stmts_at.
  by destruct (ranges (lidar g)).
Qed.

(** Each block builds an object under its channel's key. *)
Lemma channel_doc_object (c : Channel) (g : RobotStatus) :
  c ≠ Battery → ∃ mo, channel_doc c g = Some (JObject mo).
Proof.
  destruct c; try done; intros _; unfold channel_doc.
  - vm_compute. eauto.
  - vm_compute. eauto.
  - simpl block. rewrite lidar_stmts_at, apply_all_app, append_ranges_null.
    destruct (ranges (lidar g)); vm_compute; eauto.
  - vm_compute. eauto.
Qed.

(** Running a channel's block on a document that has no member for the
    channel adds the channel's node and nothing else. *)
Lemma run_block (c : Channel) (g : RobotStatus) (m : gmap string Json) :
  c ≠ Battery → m !! channel_key c = None →
  apply_all (stmts_at g (block c)) (Some (JObject m))
  = (λ d, JObject (<[ channel_key c := d ]> m)) <$> channel_doc c g.
Proof.
  intros Hc Hm.
  rewrite (apply_all_graft (channel_key c));
    [|apply block_through_key|by apply block_not_empty|done].
  unfold channel_doc. destruct c; try done;
    by destruct (apply_all _ _) as [[]|].
Qed.

(** The [if] of one channel. *)
Lemma run_guarded_block (c : Channel) (g : RobotStatus) (m : gmap string Json) :
  c ≠ Battery → m !! channel_key c = None →
  ∃ m', apply_all (if ready c g then stmts_at g (block c) else []) (Some (JObject m))
        = Some (JObject m') ∧
        m' !! channel_key c = channel_view c g ∧
        ∀ k, k ≠ channel_key c → m' !! k = m !! k.
Proof.
  intros Hc Hm. unfold channel_view. destruct (ready c g).
  - destruct (channel_doc_object c g Hc) as [mo Hmo].
    rewrite run_block, Hmo by done. simpl. eexists. split; [done|]. split.
    + by rewrite lookup_insert_eq.
    + intros k Hk. by rewrite lookup_insert_ne.
  - exists m. split; [done|]. split; [|done]. by destruct c.
Qed.

(** The document of a status request: an object whose member for each
    channel is the view of that channel. *)
Lemma handle_status_members (g : RobotStatus) :
  ∃ m, handle_status g = Some (JObject m) ∧
       ∀ c, m !! channel_key c = channel_view c g.
Proof.
  unfold handle_status, guarded_channels. simpl concat.
  rewrite !apply_all_app.
  set (m0 := ({[ "battery" := if battery_ready g then JReal (battery g) else JNull ]}
                : gmap string Json)).
  change (apply_all (battery_stmt g) (Some JNull)) with (Some (JObject m0)).
  assert (H0 : m0 !! "battery" = channel_view Battery g).
  { unfold m0, channel_view. rewrite lookup_singleton_eq. simpl.
    by destruct (battery_ready g). }
  assert (H0' : ∀ k, k ≠ "battery" → m0 !! k = None).
  { intros k Hk. unfold m0. by rewrite lookup_singleton_ne. }
  destruct (run_guarded_block OdometryCh g m0) as (m1 & E1 & H1 & H1');
    [done|by apply H0'|].
  destruct (run_guarded_block ImuCh g m1) as (m2 & E2 & H2 & H2');
    [done|rewrite H1' by done; by apply H0'|].
  destruct (run_guarded_block LidarCh g m2) as (m3 & E3 & H3 & H3');
    [done|rewrite H2', H1' by done; by apply H0'|].
  destruct (run_guarded_block CameraCh g m3) as (m4 & E4 & H4 & H4');
    [done|rewrite H3', H2', H1' by done; by apply H0'|].
  simpl in E1, E2, E3, E4. rewrite E1, E2, E3, E4. simpl apply_all.
  exists m4. split; [done|]. intros c. destruct c; simpl channel_key.
  - rewrite H4', H3', H2', H1' by done. done.
  - rewrite H4', H3', H2' by done. done.
  - rewrite H4', H3' by done. done.
  - rewrite H4' by done. done.
  - done.
Qed.

(** The nodes the blocks build, written out. *)
Lemma channel_doc_odometry (g : RobotStatus) :
  channel_doc OdometryCh g
  = Some (JObject (list_to_map
      [ ("x", JReal (vx (pose_position (odom g))));
        ("y", JReal (vy (pose_position (odom g))));
        ("z", JReal (vz (pose_position (odom g))));
        ("orientation", JObject (list_to_map
            [ ("x", JReal (qx (pose_orientation (odom g))));
              ("y", JReal (qy (pose_orientation (odom g))));
              ("z", JReal (qz (pose_orientation (odom g))));
              ("w", JReal (qw (pose_orientation (odom g)))) ]));
        ("linear", JObject (list_to_map
            [ ("x", JReal (vx (twist_linear (odom g))));
              ("y", JReal (vy (twist_linear (odom g))));
              ("z", JReal (vz (twist_linear (odom g)))) ]));
        ("angular", JObject (list_to_map
            [ ("x", JReal (vx (twist_angular (odom g))));
              ("y", JReal (vy (twist_angular (odom g))));
              ("z", JReal (vz (twist_angular (odom g)))) ])) ])).
Proof. reflexivity. Qed.

Lemma channel_doc_imu (g : RobotStatus) :
  channel_doc ImuCh g
  = Some (JObject (list_to_map
      [ ("orientation", JObject (list_to_map
            [ ("x", JReal (qx (imu_orientation (imu g))));
              ("y", JReal (qy (imu_orientation (imu g))));
              ("z", JReal (qz (imu_orientation (imu g))));
              ("w", JReal (qw (imu_orientation (imu g)))) ]));
        ("angular_velocity", JObject (list_to_map
            [ ("x", JReal (vx (angular_velocity (imu g))));
              ("y", JReal (vy (angular_velocity (imu g))));
              ("z", JReal (vz (angular_velocity (imu g)))) ]));
        ("linear_acceleration", JObject (list_to_map
            [ ("x", JReal (vx (linear_acceleration (imu g))));
              ("y", JReal (vy (linear_acceleration (imu g))));
              ("z", JReal (vz (linear_acceleration (imu g)))) ])) ])).
Proof. reflexivity. Qed.

(** The ranges member exists only when the scan has at least one range. *)
Lemma channel_doc_lidar (g : RobotStatus) :
  channel_doc LidarCh g
  = Some (JObject (list_to_map
      ((match ranges (lidar g) with
        | [] => []
        | rs => [("ranges", JArray (map JReal rs))]
        end)
       ++ [ ("angle_min", JReal (angle_min (lidar g)));
            ("angle_max", JReal (angle_max (lidar g)));
            ("angle_increment", JReal (angle_increment (lidar g)));
            ("time_increment", JReal (time_increment (lidar g)));
            ("scan_time", JReal (scan_time (lidar g)));
            ("range_min", JReal (range_min (lidar g)));
            ("range_max", JReal (range_max (lidar g))) ]))).
Proof.
  unfold channel_doc. simpl block.
  rewrite lidar_stmts_at, apply_all_app, append_ranges_null.
  by destruct (ranges (lidar g)).
Qed.

Lemma channel_doc_camera (g : RobotStatus) :
  channel_doc CameraCh g
  = Some (JObject (list_to_map
      [ ("width", JUInt (width (camera g)));
        ("height", JUInt (height (camera g)));
        ("encoding", JString (encoding (camera g)));
        ("step", JUInt (step (camera g)));
        ("data_len", JUInt (Z.of_nat (length (data (camera g))))) ])).
Proof. reflexivity. Qed.

(** ** Ready flags *)

Lemma update_sets_ready (u : Update) (g : RobotStatus) :
  ready (update_channel u) (apply_update u g) = true.
Proof. by destruct u. Qed.

Lemma update_keeps_ready (u : Update) (g : RobotStatus) (c : Channel) :
  ready c g = true → ready c (apply_update u g) = true.
Proof. by destruct u, c. Qed.

Lemma events_keep_ready (reader_parse : string → option Json)
    (evs : list Event) (s : Server) (c : Channel) :
  ready c (g_status s) = true →
  ready c (g_status (run_events reader_parse evs s)) = true.
Proof.
  revert s. induction evs as [|e evs IH]; intros s Hs; [done|].
  simpl. apply IH. destruct e; simpl; [by apply update_keeps_ready|done..].
Qed.

(** C7.  Every ready flag starts false; the callback of a channel sets the
    channel's flag; no event of the process (a message delivered to any
    callback, a status request, a move request) clears a flag that is set.  A
    status document is an object that holds, for a channel whose flag is set,
    the node built from the cached value, which is not null; for a channel
    whose flag is not set it holds no member (battery: the member with value
    null). *)
Theorem C7_ready_flags_and_snapshot (reader_parse : string → option Json) :
  (∀ c, ready c initial_status = false) ∧
  (∀ u g, ready (update_channel u) (apply_update u g) = true) ∧
  (∀ evs s c, ready c (g_status s) = true →
     ready c (g_status (run_events reader_parse evs s)) = true) ∧
  (∀ g, ∃ m, handle_status g = Some (JObject m) ∧
     ∀ c, (ready c g = true →
             ∃ d, m !! channel_key c = Some d ∧ channel_doc c g = Some d ∧ d ≠ JNull) ∧
          (ready c g = false →
             m !! channel_key c = None ∨ m !! channel_key c = Some JNull)).
Proof.
  split; [by intros []|]. split; [apply update_sets_ready|].
  split; [apply events_keep_ready|].
  intros g. destruct (handle_status_members g) as (m & Hm & Hview).
  exists m. split; [done|]. intros c. rewrite Hview. unfold channel_view.
  split; intros ->.
  - destruct (decide (c = Battery)) as [->|Hc].
    + eexists. by split_and!.
    + destruct (channel_doc_object c g Hc) as [mo Hmo]. eexists. by split_and!.
  - destruct c; simpl; auto.
Qed.

(** ** POST /move *)

(** A parsed body that has no member [f]: an object without it, or a value
    that is not an object and so has no member at all. *)
Definition lacks_member (f : string) (req : Json) : Prop :=
  match req with
  | JObject o => o !! f = None
  | _ => True
  end.

(** The values on which jsoncpp defines [isMember]. *)
Definition object_or_null (req : Json) : bool :=
  match req with
  | JObject _ | JNull => true
  | _ => false
  end.

Section MoveFacts.

Variable reader_parse : string → option Json.

(** C5.  A move request whose body parses to a JSON value without the
    member "linear" or without the member "angular": nothing is published,
    whatever the value is.  When the value is an object or null, the answer
    is the client error 400 with the message "Missing 'linear' or 'angular'",
    which names the field that is missing.  When it is any other value (an
    array, a number, a string, a boolean) [isMember] raises, the handler is
    left by the exception and no answer is sent at all. *)
Theorem C5_missing_field_outcomes (body : string) (req : Json) (f : string) :
  reader_parse body = Some req →
  f ∈ ["linear"; "angular"] →
  lacks_member f req →
  (handle_move reader_parse body).2 = [] ∧
  (object_or_null req = true →
     (handle_move reader_parse body).1
     = Some (ReplyError 400 "Missing 'linear' or 'angular'") ∧
     contains ("'" ++ f ++ "'")%string "Missing 'linear' or 'angular'" = true) ∧
  (object_or_null req = false → (handle_move reader_parse body).1 = None).
Proof.
  intros Hparse Hf Hmiss. unfold handle_move. rewrite Hparse.
  destruct req as [| | | | | | |o]; simpl; try (split_and!; done).
  - split_and!; [done| |done]. intros _. split; [done|].
    apply elem_of_cons in Hf as [->|Hf]; [done|].
    by apply list_elem_of_singleton in Hf as ->.
  - simpl in Hmiss.
    apply elem_of_cons in Hf as [->|Hf].
    + rewrite Hmiss. simpl. split_and!; done.
    + apply list_elem_of_singleton in Hf as ->. rewrite Hmiss.
      destruct (o !! "linear"); simpl; split_and!; done.
Qed.

(** C6.  A move request whose body parses to an object with real members
    "linear" = l and "angular" = a makes exactly one publish, on /cmd_vel, of
    a Twist with linear.x = l and angular.z = a (all other components 0), and
    is answered 200 with the document status "ok", linear l, angular a.  The
    driver has no connection state: the publish is made unconditionally. *)
Theorem C6_move_published_once_and_echoed
    (body : string) (o : gmap string Json) (l a : float) :
  reader_parse body = Some (JObject o) →
  o !! "linear" = Some (JReal l) →
  o !! "angular" = Some (JReal a) →
  handle_move reader_parse body
  = (Some (ReplyJson (JObject (list_to_map
        [("status", JString "ok"); ("linear", JReal l); ("angular", JReal a)]))),
     [(CMD_VEL, mkTwist (mkVec3 l 0 0) (mkVec3 0 0 a))]).
Proof.
  intros Hparse Hl Ha. unfold handle_move. rewrite Hparse. simpl.
  rewrite Hl, Ha. simpl. reflexivity.
Qed.

End MoveFacts.

(** ** Concrete requests *)

(** The two bodies of the specification's scenarios. *)
Definition body_move : string :=
  ("{" ++ quoted "linear" ++ ": 0.5, " ++ quoted "angular" ++ ": -0.2}")%string.
Definition body_no_linear : string :=
  ("{" ++ quoted "angular" ++ ": -0.2}")%string.

#[warnings="-inexact-float"]
Definition minus_0_2 : float := (-0.2)%float.

(** What the reader gives on them, and on an array. *)
Definition parse_examples (body : string) : option Json :=
  if String.eqb body body_move then
    Some (JObject (<[ "angular" := JReal minus_0_2 ]> {[ "linear" := JReal 0.5 ]}))
  else if String.eqb body body_no_linear then
    Some (JObject {[ "angular" := JReal minus_0_2 ]})
  else if String.eqb body "[]" then Some (JArray [])
  else None.

(** C5, on a body that is a JSON array: it has no "linear", and the request
    gets no answer. *)
Lemma C5_witness_array_body :
  parse_examples "[]" = Some (JArray []) ∧
  "linear" ∈ ["linear"; "angular"] ∧
  lacks_member "linear" (JArray []) ∧
  object_or_null (JArray []) = false ∧
  handle_move parse_examples "[]" = (None, []).
Proof.
  assert (H1 : parse_examples "[]" = Some (JArray [])) by reflexivity.
  assert (H2 : "linear" ∈ ["linear"; "angular"]) by (apply elem_of_cons; by left).
  assert (H3 : lacks_member "linear" (JArray [])) by exact I.
  split; [exact H1|]. split; [exact H2|]. split; [exact H3|]. split; [reflexivity|].
  destruct (C5_missing_field_outcomes parse_examples "[]" _ "linear" H1 H2 H3)
    as (Hpub & _ & Hnone).
  specialize (Hnone eq_refl).
  destruct (handle_move parse_examples "[]") as [reply pubs].
  simpl in Hpub, Hnone. by rewrite Hpub, Hnone.
Defined.

(** The scenario of the specification: an object without "linear". *)
Example move_without_linear_rejected :
  handle_move parse_examples body_no_linear
  = (Some (ReplyError 400 "Missing 'linear' or 'angular'"), []) ∧
  contains "'linear'" "Missing 'linear' or 'angular'" = true.
Proof. split; reflexivity. Qed.

(** C6, the scenario of the specification. *)
Lemma C6_witness :
  parse_examples body_move
  = Some (JObject (<[ "angular" := JReal minus_0_2 ]> {[ "linear" := JReal 0.5 ]})) ∧
  handle_move parse_examples body_move
  = (Some (ReplyJson (JObject (list_to_map
        [("status", JString "ok"); ("linear", JReal 0.5); ("angular", JReal minus_0_2)]))),
     [(CMD_VEL, mkTwist (mkVec3 0.5 0 0) (mkVec3 0 0 minus_0_2))]).
Proof.
  split; [reflexivity|].
  apply (C6_move_published_once_and_echoed parse_examples body_move
           (<[ "angular" := JReal minus_0_2 ]> {[ "linear" := JReal 0.5 ]})
           0.5 minus_0_2); reflexivity.
Defined.

(** A body that parses to something other than an object makes jsoncpp
    raise in [isMember]: nothing is sent back and nothing is published. *)
Example move_on_array_raises : handle_move parse_examples "[]" = (None, []).
Proof. reflexivity. Qed.

Example move_unparsable : handle_move parse_examples "{"
  = (Some (ReplyError 400 "Invalid JSON"), []).
Proof. reflexivity. Qed.

(** A status document right after start-up, and after a battery and a
    camera message. *)
Example status_at_startup :
  handle_status initial_status = Some (JObject {[ "battery" := JNull ]}).
Proof. reflexivity. Qed.

Example status_after_two_updates :
  handle_status
    (camera_cb (mkImage 640 480 "rgb8" 1920 []) (battery_cb 12.5 initial_status))
  = Some (JObject (list_to_map
      [ ("battery", JReal 12.5);
        ("camera", JObject (list_to_map
            [ ("width", JUInt 640); ("height", JUInt 480);
              ("encoding", JString "rgb8"); ("step", JUInt 1920);
              ("data_len", JUInt 0) ])) ])).
Proof. reflexivity. Qed.

(** ** The cache under concurrent callbacks and status requests

    Every access to [g_status] is made with [g_status.mtx] held: each callback
    holds it for its whole body, [handle_status] for the block that builds the
    document.  What a thread does with the mutex held is a critical section
    of several steps: a callback copies the message member by member and then
    sets the flag; the handler executes its statements one by one. *)

(** The member-wise copies of the message structs. *)
Definition odom_copy (msg : Odometry) : list (Odometry → Odometry) :=
  [ λ o, mkOdometry (pose_position msg) (pose_orientation o) (twist_linear o) (twist_angular o);
    λ o, mkOdometry (pose_position o) (pose_orientation msg) (twist_linear o) (twist_angular o);
    λ o, mkOdometry (pose_position o) (pose_orientation o) (twist_linear msg) (twist_angular o);
    λ o, mkOdometry (pose_position o) (pose_orientation o) (twist_linear o) (twist_angular msg) ].

Definition imu_copy (msg : Imu) : list (Imu → Imu) :=
  [ λ i, mkImu (imu_orientation msg) (angular_velocity i) (linear_acceleration i);
    λ i, mkImu (imu_orientation i) (angular_velocity msg) (linear_acceleration i);
    λ i, mkImu (imu_orientation i) (angular_velocity i) (linear_acceleration msg) ].

Definition lidar_copy (msg : LaserScan) : list (LaserScan → LaserScan) :=
  [ λ l, mkLaserScan (ranges msg) (angle_min l) (angle_max l) (angle_increment l)
           (time_increment l) (scan_time l) (range_min l) (range_max l);
    λ l, mkLaserScan (ranges l) (angle_min msg) (angle_max l) (angle_increment l)
           (time_increment l) (scan_time l) (range_min l) (range_max l);
    λ l, mkLaserScan (ranges l) (angle_min l) (angle_max msg) (angle_increment l)
           (time_increment l) (scan_time l) (range_min l) (range_max l);
    λ l, mkLaserScan (ranges l) (angle_min l) (angle_max l) (angle_increment msg)
           (time_increment l) (scan_time l) (range_min l) (range_max l);
    λ l, mkLaserScan (ranges l) (angle_min l) (angle_max l) (angle_increment l)
           (time_increment msg) (scan_time l) (range_min l) (range_max l);
    λ l, mkLaserScan (ranges l) (angle_min l) (angle_max l) (angle_increment l)
           (time_increment l) (scan_time msg) (range_min l) (range_max l);
    λ l, mkLaserScan (ranges l) (angle_min l) (angle_max l) (angle_increment l)
           (time_increment l) (scan_time l) (range_min msg) (range_max l);
    λ l, mkLaserScan (ranges l) (angle_min l) (angle_max l) (angle_increment l)
           (time_increment l) (scan_time l) (range_min l) (range_max msg) ].

Definition camera_copy (msg : Image) : list (Image → Image) :=
  [ λ c, mkImage (width msg) (height c) (encoding c) (step c) (data c);
    λ c, mkImage (width c) (height msg) (encoding c) (step c) (data c);
    λ c, mkImage (width c) (height c) (encoding msg) (step c) (data c);
    λ c, mkImage (width c) (height c) (encoding c) (step msg) (data c);
    λ c, mkImage (width c) (height c) (encoding c) (step c) (data msg) ].

Definition with_battery (d : float) (g : RobotStatus) : RobotStatus :=
  mkRobotStatus d (odom g) (imu g) (lidar g) (camera g)
    (odom_ready g) (imu_ready g) (lidar_ready g) (camera_ready g) (battery_ready g).

Definition with_odom (f : Odometry → Odometry) (g : RobotStatus) : RobotStatus :=
  mkRobotStatus (battery g) (f (odom g)) (imu g) (lidar g) (camera g)
    (odom_ready g) (imu_ready g) (lidar_ready g) (camera_ready g) (battery_ready g).

Definition with_imu (f : Imu → Imu) (g : RobotStatus) : RobotStatus :=
  mkRobotStatus (battery g) (odom g) (f (imu g)) (lidar g) (camera g)
    (odom_ready g) (imu_ready g) (lidar_ready g) (camera_ready g) (battery_ready g).

Definition with_lidar (f : LaserScan → LaserScan) (g : RobotStatus) : RobotStatus :=
  mkRobotStatus (battery g) (odom g) (imu g) (f (lidar g)) (camera g)
    (odom_ready g) (imu_ready g) (lidar_ready g) (camera_ready g) (battery_ready g).

Definition with_camera (f : Image → Image) (g : RobotStatus) : RobotStatus :=
  mkRobotStatus (battery g) (odom g) (imu g) (lidar g) (f (camera g))
    (odom_ready g) (imu_ready g) (lidar_ready g) (camera_ready g) (battery_ready g).

Definition set_ready (c : Channel) (g : RobotStatus) : RobotStatus :=
  mkRobotStatus (battery g) (odom g) (imu g) (lidar g) (camera g)
    (if decide (c = OdometryCh) then true else odom_ready g)
    (if decide (c = ImuCh) then true else imu_ready g)
    (if decide (c = LidarCh) then true else lidar_ready g)
    (if decide (c = CameraCh) then true else camera_ready g)
    (if decide (c = Battery) then true else battery_ready g).

(** The writes of a callback, in order: the value (member by member), then
    the flag. *)
Definition update_writes (u : Update) : list (RobotStatus → RobotStatus) :=
  match u with
  | UBattery d => [with_battery d]
  | UOdom msg => map with_odom (odom_copy msg)
  | UImu msg => map with_imu (imu_copy msg)
  | ULidar msg => map with_lidar (lidar_copy msg)
  | UCamera msg => map with_camera (camera_copy msg)
  end ++ [set_ready (update_channel u)].

(** The steps of the critical section of [handle_status], in source order:
    a step either tests a ready flag (the [if]) or executes one statement,
    outside any [if] or inside the one last tested. *)
Inductive SnapStep : Type :=
| Test (c : Channel)
| Always (stmt : Stmt)
| Guarded (stmt : Stmt).

(** The handler's local state: the document [root] ([None] once the JSON
    library has raised) and the outcome of the last [if] test. *)
Record Local : Type := mkLocal { root : option Json; taken : bool }.

Definition exec_snap (s : SnapStep) (g : RobotStatus) (l : Local) : Local :=
  match s with
  | Test c => mkLocal (root l) (ready c g)
  | Always stmt => mkLocal (apply_all (stmt g) (root l)) (taken l)
  | Guarded stmt =>
      if taken l then mkLocal (apply_all (stmt g) (root l)) (taken l) else l
  end.

Definition guarded_steps (c : Channel) : list SnapStep :=
  Test c :: map Guarded (block c).

Definition status_steps : list SnapStep :=
  Always battery_stmt :: concat (map guarded_steps guarded_channels).

(** [Json::Value root;] and no [if] entered yet. *)
Definition local0 : Local := mkLocal (Some JNull) false.

(** Critical sections as steps on the shared cache and the local state. *)
Definition write_step (w : RobotStatus → RobotStatus) : Step RobotStatus Local :=
  λ g l, (w g, l).

Definition snap_step (s : SnapStep) : Step RobotStatus Local :=
  λ g l, (g, exec_snap s g l).

Definition update_thread (u : Update) : Thread RobotStatus Local :=
  spawn (map write_step (update_writes u)) local0.

Definition status_thread : Thread RobotStatus Local :=
  spawn (map snap_step status_steps) local0.

(** One thread per delivered message, and one status request, which is the
    thread number [length us]. *)
Definition start (us : list Update) : list (Thread RobotStatus Local) :=
  map update_thread us ++ [status_thread].

(** What a document shows of a channel. *)
Definition shown (c : Channel) (doc : option Json) : option Json :=
  match doc with
  | Some (JObject m) => m !! channel_key c
  | _ => None
  end.

(** The cache after some updates, each applied as a whole. *)
Definition apply_updates (us : list Update) (g : RobotStatus) : RobotStatus :=
  foldl (λ acc u, apply_update u acc) g us.

(** *** The critical sections run alone *)

Lemma update_writes_whole (u : Update) (g : RobotStatus) :
  foldl (λ acc w, w acc) g (update_writes u) = apply_update u g.
Proof. destruct u as [d|[]|[]|[]|[]], g; reflexivity. Qed.

Lemma run_cs_writes (ws : list (RobotStatus → RobotStatus)) (g : RobotStatus) (l : Local) :
  run_cs (map write_step ws) (g, l) = (foldl (λ acc w, w acc) g ws, l).
Proof. revert g. induction ws as [|w ws IH]; intros g; [done|]. simpl. apply IH. Qed.

Lemma run_cs_update (u : Update) (g : RobotStatus) (l : Local) :
  run_cs (map write_step (update_writes u)) (g, l) = (apply_update u g, l).
Proof. by rewrite run_cs_writes, update_writes_whole. Qed.

Lemma run_cs_snap (steps : list SnapStep) (g : RobotStatus) (l : Local) :
  run_cs (map snap_step steps) (g, l) = (g, foldl (λ acc s, exec_snap s g acc) l steps).
Proof. revert l. induction steps as [|s steps IH]; intros l; [done|]. simpl. apply IH. Qed.

Lemma run_guarded_stmts (g : RobotStatus) (stmts : list Stmt) (r : option Json) (b : bool) :
  foldl (λ acc s, exec_snap s g acc) (mkLocal r b) (map Guarded stmts)
  = mkLocal (apply_all (if b then stmts_at g stmts else []) r) b.
Proof.
  revert r. induction stmts as [|s stmts IH]; intros r.
  - by destruct b.
  - simpl. destruct b; simpl.
    + rewrite IH. unfold stmts_at. simpl. by rewrite apply_all_app.
    + by rewrite IH.
Qed.

Lemma run_guarded_steps (g : RobotStatus) (c : Channel) (l : Local) :
  foldl (λ acc s, exec_snap s g acc) l (guarded_steps c)
  = mkLocal (apply_all (if ready c g then stmts_at g (block c) else []) (root l))
      (ready c g).
Proof. unfold guarded_steps. simpl. by rewrite run_guarded_stmts. Qed.

(** Run alone, the steps of the handler build the document of
    [handle_status]. *)
Lemma run_status_steps (g : RobotStatus) :
  root (foldl (λ acc s, exec_snap s g acc) local0 status_steps) = handle_status g.
Proof.
  unfold handle_status, status_steps, guarded_channels.
  cbn [concat map foldl].
  rewrite !foldl_app, !run_guarded_steps. cbn [foldl root exec_snap local0].
  by rewrite !apply_all_app.
Qed.

(** *** What a snapshot shows of a channel *)

Lemma shown_status (c : Channel) (g : RobotStatus) :
  shown c (handle_status g) = channel_view c g.
Proof. destruct (handle_status_members g) as (m & -> & Hm). apply Hm. Qed.

Lemma stmts_at_other (u : Update) (c : Channel) (g : RobotStatus) :
  update_channel u ≠ c →
  stmts_at (apply_update u g) (block c) = stmts_at g (block c).
Proof. destruct u, c; done. Qed.

Lemma stmts_at_same (u : Update) (g g' : RobotStatus) :
  stmts_at (apply_update u g) (block (update_channel u))
  = stmts_at (apply_update u g') (block (update_channel u)).
Proof. by destruct u. Qed.

(** An update of another channel leaves the view of a channel as it is. *)
Lemma view_other (u : Update) (c : Channel) (g : RobotStatus) :
  update_channel u ≠ c → channel_view c (apply_update u g) = channel_view c g.
Proof.
  intros Hc. unfold channel_view, channel_doc.
  rewrite (stmts_at_other u c g Hc).
  by destruct u, c.
Qed.

(** The view of a channel after its update depends on the update alone. *)
Lemma view_same (u : Update) (g g' : RobotStatus) :
  channel_view (update_channel u) (apply_update u g)
  = channel_view (update_channel u) (apply_update u g').
Proof.
  unfold channel_view, channel_doc.
  rewrite (stmts_at_same u g g'). by destruct u.
Qed.

Lemma view_after_updates (applied : list Update) (g0 : RobotStatus) (c : Channel) :
  channel_view c (apply_updates applied g0) = channel_view c g0 ∨
  ∃ u, u ∈ applied ∧ update_channel u = c ∧
       channel_view c (apply_updates applied g0) = channel_view c (apply_update u g0).
Proof.
  induction applied as [|u applied IH] using rev_ind; [by left|].
  unfold apply_updates in *. rewrite foldl_app. simpl.
  destruct (decide (update_channel u = c)) as [<-|Hne].
  - right. exists u. split; [apply elem_of_app; right; by left|].
    split; [done|]. apply view_same.
  - rewrite view_other by done. destruct IH as [IH|(u' & Hin & Hc & IH)].
    + by left.
    + right. exists u'. split; [apply elem_of_app; by left|]. done.
Qed.

(** Critical sections run one after the other from the threads of [start]
    apply some of the updates, each as a whole. *)
Lemma serial_start (us : list Update) (order : list nat) (g0 : RobotStatus) :
  ∃ applied, Forall (λ u, u ∈ us) applied ∧
    serial (start us) g0 order = apply_updates applied g0.
Proof.
  induction order as [|i order IH] using rev_ind; [by exists []|].
  destruct IH as (applied & Hall & Hs).
  destruct (start us !! i) as [t|] eqn:Hi;
    [|exists applied; by rewrite serial_snoc_none].
  rewrite (serial_snoc _ _ _ _ _ Hi), Hs.
  unfold start in Hi. apply lookup_app_Some in Hi as [Hi|[_ Hi]].
  - rewrite list_lookup_fmap in Hi.
    destruct (us !! i) as [u|] eqn:Hu; [|done]. injection Hi as <-.
    unfold update_thread, spawn. cbn [th_body th_loc].
    rewrite run_cs_update. cbn [fst].
    exists (applied ++ [u]). split.
    + apply Forall_app. split; [done|]. apply Forall_singleton.
      by eapply list_elem_of_lookup_2.
    + unfold apply_updates. by rewrite foldl_app.
  - apply list_elem_of_lookup_2, list_elem_of_singleton in Hi as ->.
    unfold status_thread, spawn. cbn [th_body th_loc].
    rewrite run_cs_snap. cbn [fst]. by exists applied.
Qed.

(** C9.  A status request served while callbacks run, under any schedule of
    the threads: the request can always be brought to its end (the mutex
    never leaves it stuck), and when the handler has left its critical
    section the document it holds is the one [handle_status] builds from the
    cache after some of the updates, each applied as a whole.  So what it
    shows of a channel is what a snapshot of the cache before the updates
    shows, or what a snapshot taken after one of the updates of that channel
    shows: never a mixture. *)
Theorem C9_snapshot_never_torn (g0 : RobotStatus) (us : list Update) (sched : list nat) :
  let c := run_schedule sched (initial_config (start us) g0) in
  (∃ more t,
     threads (run_schedule (sched ++ more) (initial_config (start us) g0))
       !! length us = Some t ∧ th_pc t = Finished) ∧
  ∀ t, threads c !! length us = Some t → th_pc t = Finished →
    (∃ applied, Forall (λ u, u ∈ us) applied ∧
       root (th_loc t) = handle_status (apply_updates applied g0)) ∧
    ∀ ch, shown ch (root (th_loc t)) = shown ch (handle_status g0) ∨
          ∃ u, u ∈ us ∧ update_channel u = ch ∧
               shown ch (root (th_loc t)) = shown ch (handle_status (apply_update u g0)).
Proof.
  intros c.
  assert (Hw : Forall (λ t : Thread RobotStatus Local, th_pc t = Waiting) (start us)).
  { unfold start. apply Forall_app. split; [|by apply Forall_singleton].
    by apply Forall_fmap, Forall_true. }
  assert (Hn : start us !! length us = Some status_thread).
  { unfold start. rewrite lookup_app_r by (by rewrite length_map).
    by rewrite length_map, Nat.sub_diag. }
  split; [by apply (can_always_finish (start us) g0 sched _ status_thread)|].
  intros t Ht Hfin.
  destruct (critical_sections_atomic (start us) g0 sched _ _ t Hw Hn Ht Hfin)
    as (before & _ & _ & Hloc).
  destruct (serial_start us before g0) as (applied & Hall & Hs).
  assert (Hroot : root (th_loc t) = handle_status (apply_updates applied g0)).
  { rewrite Hloc, Hs. unfold status_thread, spawn. cbn [th_body th_loc].
    rewrite run_cs_snap. cbn [snd]. apply run_status_steps. }
  split; [by exists applied|].
  intros ch. rewrite Hroot, !shown_status.
  destruct (view_after_updates applied g0 ch) as [H|(u & Hin & Hc & H)].
  - by left.
  - right. exists u. rewrite shown_status. split; [|done].
    by apply (proj1 (Forall_forall _ _) Hall).
Qed.

(** A concrete race: the battery callback has written the value but not yet
    the flag when the status request arrives; the request waits in [lock()],
    then runs while the camera callback in turn waits. *)
Definition demo_updates : list Update :=
  [UBattery 12.5; UCamera (mkImage 640 480 "rgb8" 1920 [])].

Definition demo_schedule : list nat :=
  [0; 0; 2; 2; 1; 0; 0]%nat ++ concat (replicate 45 [2; 1]%nat) ++ replicate 8 1%nat.

Example demo_run :
  let c := run_schedule demo_schedule (initial_config (start demo_updates) initial_status) in
  (root ∘ th_loc <$> threads c !! 2%nat)
    = Some (Some (JObject {[ "battery" := JReal 12.5 ]})) ∧
  holder c = None ∧
  shared c = camera_cb (mkImage 640 480 "rgb8" 1920 []) (battery_cb 12.5 initial_status).
Proof. vm_compute. done. Qed.

(** C9, at that race: the document shows the battery value of the update
    that was under way when the request arrived, whole, and no camera. *)
Lemma C9_witness :
  let c := run_schedule demo_schedule (initial_config (start demo_updates) initial_status) in
  ∃ t, threads c !! 2%nat = Some t ∧ th_pc t = Finished ∧
    root (th_loc t) = Some (JObject {[ "battery" := JReal 12.5 ]}) ∧
    ∀ ch, shown ch (root (th_loc t)) = shown ch (handle_status initial_status) ∨
          ∃ u, u ∈ demo_updates ∧ update_channel u = ch ∧
               shown ch (root (th_loc t))
               = shown ch (handle_status (apply_update u initial_status)).
Proof.
  intros c.
  assert (H : (λ t, (finished t, root (th_loc t))) <$> threads c !! 2%nat
              = Some (true, Some (JObject {[ "battery" := JReal 12.5 ]})))
    by (vm_compute; reflexivity).
  destruct (threads c !! 2%nat) as [t|] eqn:Ht; [|discriminate H].
  injection H as Hf Hr.
  assert (Hpc : th_pc t = Finished)
    by (unfold finished in Hf; destruct (th_pc t); [discriminate..|reflexivity]).
  exists t. split; [reflexivity|]. split; [exact Hpc|]. split; [exact Hr|].
  exact (proj2 (proj2 (C9_snapshot_never_torn initial_status demo_updates demo_schedule)
                  t Ht Hpc)).
Defined.

(** ** The HTTP side: reading a request and routing it *)

(** [#define BUFFER_SIZE 65536]; the router asks [recv] for one byte less. *)
#[warnings="-abstract-large-number"]
Definition RECV_MAX : nat := 65535.

Definition CR : Ascii.ascii := Ascii.ascii_of_nat 13.
Definition LF : Ascii.ascii := Ascii.ascii_of_nat 10.
Definition CRLF : string := String CR (String LF EmptyString).

Definition str_empty (s : string) : bool :=
  match s with EmptyString => true | _ => false end.

(** *** [std::istringstream]

    The characters not yet read, and whether the stream is still [good()].
    Once it is not, every further extraction fails. *)
Record IStream : Type := mkIStream { in_buffer : string; in_good : bool }.

(** The longest run of non-space characters at the front, and what follows. *)
Fixpoint take_word (s : string) : string * string :=
  match s with
  | String c rest =>
      if is_space c then (EmptyString, s)
      else let r := take_word rest in (String c r.1, r.2)
  | EmptyString => (EmptyString, EmptyString)
  end.

(** [iss >> word]: white space is skipped, then characters are taken up to
    the next white space (left in the stream) or the end (which sets
    [eofbit]); with nothing to take the extraction fails and the word stays
    empty. *)
Definition extract_word (s : IStream) : string * IStream :=
  if negb (in_good s) then (EmptyString, mkIStream (in_buffer s) false)
  else
    let b := skip_spaces (in_buffer s) in
    if str_empty b then (EmptyString, mkIStream EmptyString false)
    else let r := take_word b in (r.1, mkIStream r.2 (negb (str_empty r.2))).

(** The characters up to the first line feed, and what follows it, if there
    is one. *)
Fixpoint split_line (s : string) : string * option string :=
  match s with
  | String c rest =>
      if Ascii.eqb c LF then (EmptyString, Some rest)
      else let r := split_line rest in (String c r.1, r.2)
  | EmptyString => (EmptyString, None)
  end.

(** [std::getline(iss, line)]: the line ([None] when the call comes to
    false) and the stream after it. *)
Definition getline (s : IStream) : option string * IStream :=
  if negb (in_good s) then (None, mkIStream (in_buffer s) false)
  else if str_empty (in_buffer s) then (None, mkIStream EmptyString false)
  else
    match split_line (in_buffer s) with
    | (line, Some rest) => (Some line, mkIStream rest true)
    | (line, None) => (Some line, mkIStream EmptyString false)
    end.

(** [line.find(':')] with the two [substr]: the key and what follows the
    colon. *)
Fixpoint split_colon (s : string) : option (string * string) :=
  match s with
  | String c rest =>
      if Ascii.eqb c ":" then Some (EmptyString, rest)
      else (λ r : string * string, (String c r.1, r.2)) <$> split_colon rest
  | EmptyString => None
  end.

(** [while (!val.empty() && (val[0] == ' ' || val[0] == '\t')) val = val.substr(1);] *)
Fixpoint strip_blanks (s : string) : string :=
  match s with
  | String c rest =>
      if Ascii.eqb c " " || Ascii.eqb c (Ascii.ascii_of_nat 9) then strip_blanks rest else s
  | EmptyString => s
  end.

(** [val.erase(val.find_last_not_of("\r\n") + 1);] *)
Fixpoint strip_line_end (s : string) : string :=
  match s with
  | String c rest =>
      let r := strip_line_end rest in
      if str_empty r && (Ascii.eqb c CR || Ascii.eqb c LF) then EmptyString
      else String c r
  | EmptyString => EmptyString
  end.

(** The header loop of [http_router] (lines 323-334): the headers and the
    content length when the loop is left, [None] when [std::stoi] throws.
    Every turn that goes on takes at least one character off the stream, so a
    [fuel] above the length of the buffer is never used up. *)
Fixpoint header_loop (fuel : nat) (s : IStream) (headers : gmap string string)
    (content_length : Z) : option (gmap string string * Z) :=
  match fuel with
  | O => Some (headers, content_length)
  | S fuel' =>
      match getline s with
      | (None, _) => Some (headers, content_length)
      | (Some line, s') =>
          if String.eqb line (String CR EmptyString) then Some (headers, content_length)
          else if str_empty line || String.eqb line (String LF EmptyString)
                  || String.eqb line CRLF
          then Some (headers, content_length)
          else
            match split_colon line with
            | None => header_loop fuel' s' headers content_length
            | Some (key, val0) =>
                let val := strip_line_end (strip_blanks val0) in
                let headers' := <[ key := val ]> headers in
                if String.eqb key "Content-Length" then
                  n ← stoi val; header_loop fuel' s' headers' n
                else header_loop fuel' s' headers' content_length
            end
      end
  end.

(** *** The socket

    The data that is still to come on the connection, in the pieces in
    which [recv] will return it.  [recv] returns at most the number of bytes
    asked for and leaves the rest of the piece for the next call; an empty
    piece, or none, stands for a call that returns 0 or -1. *)
Definition Socket : Type := list string.

Fixpoint take_str (n : nat) (s : string) : string :=
  match n, s with
  | S n', String c rest => String c (take_str n' rest)
  | _, _ => EmptyString
  end.

Fixpoint drop_str (n : nat) (s : string) : string :=
  match n, s with
  | S n', String _ rest => drop_str n' rest
  | _, _ => s
  end.

Definition recv (sock : Socket) (len : nat) : option string * Socket :=
  match sock with
  | [] => (None, [])
  | piece :: rest =>
      if str_empty piece then (None, rest)
      else (Some (take_str len piece),
            if (String.length piece <=? len)%nat then rest
            else drop_str len piece :: rest)
  end.

(** The loop of [read_http_body]. *)
Fixpoint read_loop (fuel : nat) (sock : Socket) (content_length total : Z)
    (body : string) : string * Socket :=
  match fuel with
  | O => (body, sock)
  | S fuel' =>
      if total <? content_length then
        let to_read := Z.min 4096 (content_length - total) in
        match recv sock (Z.to_nat to_read) with
        | (None, sock') => (body, sock')
        | (Some buf, sock') =>
            read_loop fuel' sock' content_length
              (total + Z.of_nat (String.length buf)) (body ++ buf)%string
        end
      else (body, sock)
  end.

(** [read_http_body]: [None] when [body.reserve] throws (a negative
    length); every turn of the loop adds at least one byte, so
    [content_length] turns are enough. *)
Definition read_http_body (sock : Socket) (content_length : Z)
  : option (string * Socket) :=
  if content_length <? 0 then None
  else Some (read_loop (Z.to_nat content_length) sock content_length 0 EmptyString).

(** *** POST /nav *)

Definition NAV_CMD : string := "/nav_cmd".

(** What the router hands to the ROS publishers. *)
Inductive RosMessage : Type :=
| MsgTwist (t : Twist)
| MsgString (data : string).

Section Router.

Variable reader_parse : string → option Json.
(** [Json::FastWriter::write]. *)
Variable fast_write : Json → string.
(** jsoncpp's text for a number (inside [asString]). *)
Variable number_text : Json → string.

(** [Json::Value::asString()]: strings as they are, null as the empty
    string, booleans and numbers as text; arrays and objects raise. *)
Definition asString (j : Json) : option string :=
  match j with
  | JString s => Some s
  | JNull => Some EmptyString
  | JBool b => Some (if b then "true" else "false")
  | JInt _ | JUInt _ | JReal _ => Some (number_text j)
  | _ => None
  end.

Definition isArray (j : Json) : bool :=
  match j with JArray _ => true | _ => false end.

(** [req.get(key, default)]: the member, or the default when there is none;
    raises on kinds other than object and null. *)
Definition json_get (key : string) (dflt : Json) (j : Json) : option Json :=
  match j with
  | JNull => Some dflt
  | JObject o => Some (default dflt (o !! key))
  | _ => None
  end.

(** [handle_nav] (lines 256-278): what is sent back ([None] when a jsoncpp
    call raised) and what was published on [g_nav_pub]. *)
Definition handle_nav (body : string) : option HttpReply * list (string * string) :=
  match reader_parse body with
  | None => (Some (ReplyError 400 "Invalid JSON"), [])
  | Some req =>
      match isMember "points" req with
      | None => (None, [])
      | Some has_points =>
          match (if has_points then isArray <$> member_or_null "points" req
                 else Some false) with
          | None => (None, [])
          | Some points_ok =>
              if negb points_ok then
                (Some (ReplyError 400 "Missing 'points' array"), [])
              else
                match json_get "algorithm" (JString "dijkstra") req ≫= asString with
                | None => (None, [])
                | Some algorithm =>
                    let resp :=
                      JObject (<[ "algorithm" := JString algorithm ]>
                                (<[ "status" := JString "ok" ]> ∅)) in
                    (Some (ReplyJson resp), [(NAV_CMD, fast_write req)])
                end
          end
      end
  end.

(** *** [http_router] *)

(** What serving one connection comes to: the reply sent (if any), the
    messages published, whether an exception left the handler thread (which
    ends the process), and what is left to read on the socket. *)
Record Served : Type := mkServed {
  sv_reply : option HttpReply;
  sv_published : list (string * RosMessage);
  sv_crashed : bool;
  sv_socket : Socket
}.

Definition crashed (sock : Socket) : Served := mkServed None [] true sock.

(** The endpoints (lines 337-347), once method, path and content length are
    known. *)
Definition dispatch (method path : string) (content_length : Z) (sock : Socket)
    (g : RobotStatus) : Served :=
  if String.eqb method "GET" && String.eqb path "/status" then
    match handle_status g with
    | Some doc => mkServed (Some (ReplyJson doc)) [] false sock
    | None => crashed sock
    end
  else if String.eqb method "POST" && String.eqb path "/nav" then
    match read_http_body sock content_length with
    | None => crashed sock
    | Some (body, sock') =>
        match handle_nav body with
        | (Some r, pubs) =>
            mkServed (Some r) (map (λ p, (p.1, MsgString p.2)) pubs) false sock'
        | (None, _) => crashed sock'
        end
    end
  else if String.eqb method "POST" && String.eqb path "/move" then
    match read_http_body sock content_length with
    | None => crashed sock
    | Some (body, sock') =>
        match handle_move reader_parse body with
        | (Some r, pubs) =>
            mkServed (Some r) (map (λ p, (p.1, MsgTwist p.2)) pubs) false sock'
        | (None, _) => crashed sock'
        end
    end
  else mkServed (Some (ReplyError 404 "Not found")) [] false sock.

(** [http_router]: one [recv] of up to 65535 bytes is the request; method,
    path and version are its first three words; then the header loop; then
    the endpoint. *)
Definition http_router (sock : Socket) (g : RobotStatus) : Served :=
  match recv sock RECV_MAX with
  | (None, sock') => mkServed None [] false sock'
  | (Some req, sock') =>
      let iss := mkIStream req true in
      let '(method, iss1) := extract_word iss in
      let '(path, iss2) := extract_word iss1 in
      let '(ver, iss3) := extract_word iss2 in
      match header_loop (S (String.length req)) iss3 ∅ 0 with
      | None => crashed sock'
      | Some (_, content_length) => dispatch method path content_length sock' g
      end
  end.

End Router.

(** *** Strings *)

Lemma str_app_cons (c : Ascii.ascii) (s t : string) :
  (String c s ++ t)%string = String c (s ++ t).
Proof. reflexivity. Qed.

Lemma str_app_nil_l (t : string) : ("" ++ t)%string = t.
Proof. reflexivity. Qed.

Lemma str_app_nil_r (s : string) : (s ++ "")%string = s.
Proof.
  induction s as [|c s IH]; [done|]. by rewrite str_app_cons, IH.
Qed.

Lemma str_app_assoc (a b c : string) : ((a ++ b) ++ c)%string = (a ++ (b ++ c))%string.
Proof.
  induction a as [|x a IH]; [done|]. by rewrite !str_app_cons, IH.
Qed.

Lemma str_length_app (a b : string) :
  String.length (a ++ b) = (String.length a + String.length b)%nat.
Proof.
  induction a as [|x a IH]; [done|]. rewrite str_app_cons. simpl. by rewrite IH.
Qed.

Lemma take_drop_str (n : nat) (s : string) : (take_str n s ++ drop_str n s)%string = s.
Proof.
  revert s. induction n as [|n IH]; intros [|c s]; simpl; try done.
  by rewrite str_app_cons, IH.
Qed.

Lemma take_str_length (n : nat) (s : string) :
  String.length (take_str n s) = Nat.min n (String.length s).
Proof. revert s. induction n as [|n IH]; intros [|c s]; simpl; try done. by f_equal. Qed.

Lemma take_str_all (n : nat) (s : string) :
  (String.length s ≤ n)%nat → take_str n s = s.
Proof.
  revert s. induction n as [|n IH]; intros [|c s] H; simpl in *; try done; try lia.
  f_equal. apply IH. lia.
Qed.

Lemma drop_str_length (n : nat) (s : string) :
  String.length (drop_str n s) = (String.length s - n)%nat.
Proof. revert s. induction n as [|n IH]; intros [|c s]; simpl; try done. Qed.

(** A word: not empty and without white space. *)
Fixpoint no_space (s : string) : bool :=
  match s with
  | String c rest => negb (is_space c) && no_space rest
  | EmptyString => true
  end.

Definition is_word (s : string) : bool := negb (str_empty s) && no_space s.

Lemma take_word_app (w rest : string) (c : Ascii.ascii) :
  no_space w = true → is_space c = true →
  take_word (w ++ String c rest) = (w, String c rest).
Proof.
  intros Hw Hc. induction w as [|x w IH].
  - rewrite str_app_nil_l. simpl. by rewrite Hc.
  - simpl in Hw. apply andb_prop in Hw as [Hx Hw]. apply negb_true_iff in Hx.
    rewrite str_app_cons. simpl. by rewrite Hx, (IH Hw).
Qed.

Lemma skip_spaces_word (w rest : string) :
  is_word w = true → skip_spaces (w ++ rest) = (w ++ rest)%string.
Proof.
  unfold is_word. destruct w as [|x w]; [done|]. simpl.
  intros [Hx _]%andb_prop. apply negb_true_iff in Hx.
  rewrite str_app_cons. simpl. by rewrite Hx.
Qed.

(** Extracting a word that is followed by white space. *)
Lemma extract_word_app (buf w rest : string) (c : Ascii.ascii) :
  skip_spaces buf = (w ++ String c rest)%string →
  is_word w = true → is_space c = true →
  extract_word (mkIStream buf true) = (w, mkIStream (String c rest) true).
Proof.
  intros Hlead Hw Hc. unfold extract_word. simpl. rewrite Hlead.
  unfold is_word in Hw. apply andb_prop in Hw as [Hne Hns].
  rewrite (take_word_app w rest c Hns Hc).
  destruct w as [|x w]; [done|]. by rewrite str_app_cons.
Qed.

Section RouterFacts.

Variable reader_parse : string → option Json.
Variable fast_write : Json → string.
Variable number_text : Json → string.

Lemma header_loop_at_line_end (n : nat) (term rest : string) :
  term = CRLF ∨ term = String LF EmptyString →
  header_loop (S n) (mkIStream (term ++ rest) true) ∅ 0 = Some (∅, 0).
Proof. intros [->| ->]; reflexivity. Qed.

(** A request whose first line is method, path and version with one blank
    between them and ends right after the version (with CR LF, or LF alone):
    its first three words are method, path and version, and the header loop
    stops at once, on what is left of the request line.  No header is read,
    the content length stays 0, and the endpoint is chosen from method and
    path alone; a POST handler is given the empty body, and nothing further
    is read from the socket.  With a reader that rejects the empty document,
    POST /move and POST /nav answer such a request with 400 "Invalid JSON"
    whatever it carries. *)
Theorem router_reads_no_header (method path ver term rest : string)
    (sock : Socket) (g : RobotStatus) :
  is_word method = true → is_word path = true → is_word ver = true →
  term = CRLF ∨ term = String LF EmptyString →
  let req := (method ++ " " ++ path ++ " " ++ ver ++ term ++ rest)%string in
  (String.length req ≤ RECV_MAX)%nat →
  let served := http_router reader_parse fast_write number_text (req :: sock) g in
  served = dispatch reader_parse fast_write number_text method path 0 sock g ∧
  sv_socket served = sock ∧
  (reader_parse "" = None → method = "POST" → path = "/move" ∨ path = "/nav" →
   served = mkServed (Some (ReplyError 400 "Invalid JSON")) [] false sock).
Proof.
  intros Hm Hp Hv Hterm req Hlen served.
  assert (Hserved : served
            = dispatch reader_parse fast_write number_text method path 0 sock g).
  { unfold served, http_router.
    assert (Hne : str_empty req = false).
    { unfold req. unfold is_word in Hm. destruct method; [done|]. done. }
    unfold recv. rewrite Hne, (take_str_all _ _ Hlen).
    apply Nat.leb_le in Hlen. rewrite Hlen.
    assert (Hsp : is_space " " = true) by reflexivity.
    rewrite (extract_word_app req method (path ++ " " ++ ver ++ term ++ rest) " ");
      [|by apply skip_spaces_word|done..].
    rewrite (extract_word_app _ path (ver ++ term ++ rest) " ");
      [|simpl; by apply skip_spaces_word|done..].
    assert (Hterm' : ∃ c rest', (term ++ rest)%string = String c rest'
                                ∧ is_space c = true).
    { destruct Hterm as [->| ->]; eexists _, _; split; reflexivity. }
    destruct Hterm' as (c & rest' & Hc & Hcs).
    rewrite (extract_word_app _ ver rest' c);
      [|simpl; rewrite <- Hc; by apply skip_spaces_word|done..].
    rewrite <- Hc. by rewrite header_loop_at_line_end. }
  split; [exact Hserved|]. split.
  - rewrite Hserved. unfold dispatch.
    destruct (_ && _); [by destruct (handle_status g)|].
    destruct (_ && _); [simpl; by destruct (handle_nav _ _ _ _) as [[]]|].
    destruct (_ && _); [simpl; by destruct (handle_move _ _) as [[]]|]. done.
  - intros Hempty -> [->| ->]; rewrite Hserved; unfold dispatch; simpl;
      unfold handle_nav, handle_move; by rewrite Hempty.
Qed.

End RouterFacts.

(** A POST /move as a client sends it in one piece, with a Content-Length
    header and the body of the specification's scenario. *)
Definition request_move : string :=
  ("POST /move HTTP/1.1" ++ CRLF ++ "Content-Type: application/json" ++ CRLF
   ++ "Content-Length: 32" ++ CRLF ++ CRLF ++ body_move)%string.

(** A reader that knows the scenario body and rejects everything else, the
    empty document included. *)
Definition parse_move_only (body : string) : option Json :=
  if String.eqb body body_move then
    Some (JObject (<[ "angular" := JReal minus_0_2 ]> {[ "linear" := JReal 0.5 ]}))
  else None.

Lemma router_reads_no_header_witness :
  let served := http_router parse_move_only (λ _, "") (λ _, "") [request_move]
                  initial_status in
  is_word "POST" = true ∧ is_word "/move" = true ∧ is_word "HTTP/1.1" = true ∧
  (String.length request_move ≤ RECV_MAX)%nat ∧
  served = dispatch parse_move_only (λ _, "") (λ _, "") "POST" "/move" 0 [] initial_status ∧
  sv_socket served = [] ∧
  served = mkServed (Some (ReplyError 400 "Invalid JSON")) [] false [].
Proof.
  intros served.
  assert (H1 : is_word "POST" = true) by reflexivity.
  assert (H2 : is_word "/move" = true) by reflexivity.
  assert (H3 : is_word "HTTP/1.1" = true) by reflexivity.
  assert (H4 : (String.length request_move ≤ RECV_MAX)%nat)
    by (apply Nat.leb_le; vm_compute; reflexivity).
  destruct (router_reads_no_header parse_move_only (λ _, "") (λ _, "")
              "POST" "/move" "HTTP/1.1" CRLF
              ("Content-Type: application/json" ++ CRLF ++ "Content-Length: 32"
               ++ CRLF ++ CRLF ++ body_move)%string
              [] initial_status H1 H2 H3 (or_introl eq_refl) H4) as (R1 & R2 & R3).
  split; [exact H1|]. split; [exact H2|]. split; [exact H3|]. split; [exact H4|].
  split; [exact R1|]. split; [exact R2|].
  apply R3; [reflexivity|reflexivity|by left].
Defined.

(** The body handed over is what arrives after the first [recv], and only
    when the header loop gets to see the headers: here the request line has a
    blank after the version, the headers are read, and the body comes in a
    later piece. *)
Example router_reads_headers_after_trailing_blank :
  http_router parse_move_only (λ _, "") (λ _, "")
    [("POST /move HTTP/1.1 " ++ CRLF ++ "Content-Length: 32" ++ CRLF ++ CRLF)%string;
     body_move] initial_status
  = mkServed
      (Some (ReplyJson (JObject (list_to_map
         [("status", JString "ok"); ("linear", JReal 0.5);
          ("angular", JReal minus_0_2)]))))
      [(CMD_VEL, MsgTwist (mkTwist (mkVec3 0.5 0 0) (mkVec3 0 0 minus_0_2)))]
      false [].
Proof. vm_compute. reflexivity. Qed.

Example router_status_and_unknown_path :
  http_router parse_move_only (λ _, "") (λ _, "")
    [("GET /status HTTP/1.1" ++ CRLF ++ CRLF)%string] initial_status
  = mkServed (Some (ReplyJson (JObject {[ "battery" := JNull ]}))) [] false [] ∧
  http_router parse_move_only (λ _, "") (λ _, "")
    [("GET /healthz HTTP/1.1" ++ CRLF ++ CRLF)%string] initial_status
  = mkServed (Some (ReplyError 404 "Not found")) [] false [] ∧
  http_router parse_move_only (λ _, "") (λ _, "") [] initial_status
  = mkServed None [] false [].
Proof. vm_compute. split_and!; reflexivity. Qed.

(** A Content-Length that is not a number, once the headers are read, ends
    the process: [std::stoi] throws in the handler thread. *)
Example router_bad_content_length :
  http_router parse_move_only (λ _, "") (λ _, "")
    [("POST /move HTTP/1.1 " ++ CRLF ++ "Content-Length: ten" ++ CRLF ++ CRLF)%string]
    initial_status
  = mkServed None [] true [].
Proof. vm_compute. reflexivity. Qed.

(** *** Reading the body *)

(** All the data that is to come on a socket. *)
Definition concat_str (sock : Socket) : string := foldr String.append EmptyString sock.

Lemma recv_data (sock sock' : Socket) (len : nat) (buf : string) :
  (0 < len)%nat → recv sock len = (Some buf, sock') →
  (buf ++ concat_str sock')%string = concat_str sock ∧
  (1 ≤ String.length buf ≤ len)%nat ∧
  (Forall (λ p, p ≠ EmptyString) sock → Forall (λ p, p ≠ EmptyString) sock').
Proof.
  intros Hlen. unfold recv. destruct sock as [|piece rest]; [done|].
  destruct (str_empty piece) eqn:He; [done|].
  assert (Hpos : (1 ≤ String.length piece)%nat).
  { destruct piece; [done|simpl; lia]. }
  destruct (Nat.leb_spec (String.length piece) len) as [Hle|Hgt];
    intros [= <- <-]; rewrite take_str_length.
  - rewrite take_str_all by done. split_and!; [done|lia|lia|].
    by intros [_ ?]%Forall_cons.
  - split_and!.
    + cbn [concat_str foldr]. by rewrite <- str_app_assoc, take_drop_str.
    + lia.
    + lia.
    + intros [_ ?]%Forall_cons. apply Forall_cons. split; [|done].
      intros Hd. pose proof (drop_str_length len piece) as Hl.
      rewrite Hd in Hl. simpl in Hl. lia.
Qed.

Lemma recv_nothing (sock sock' : Socket) (len : nat) :
  recv sock len = (None, sock') →
  concat_str sock' = concat_str sock ∧
  (Forall (λ p, p ≠ EmptyString) sock → sock = []).
Proof.
  unfold recv. destruct sock as [|piece rest]; [by intros [= <-]|].
  destruct piece as [|c piece]; [|done]. simpl. intros [= <-].
  split; [done|]. by intros [? _]%Forall_cons.
Qed.

Lemma read_loop_spec (fuel : nat) (sock : Socket) (cl total : Z) (body : string) :
  total = Z.of_nat (String.length body) → total ≤ cl → cl - total ≤ Z.of_nat fuel →
  let r := read_loop fuel sock cl total body in
  (r.1 ++ concat_str r.2)%string = (body ++ concat_str sock)%string ∧
  Z.of_nat (String.length r.1) ≤ cl ∧
  (Forall (λ p, p ≠ EmptyString) sock →
   Z.of_nat (String.length r.1)
   = Z.min cl (Z.of_nat (String.length body) + Z.of_nat (String.length (concat_str sock)))).
Proof.
  revert sock total body. induction fuel as [|fuel IH]; intros sock total body Ht Hle Hf.
  - simpl. split_and!; [done|lia|]. intros _. lia.
  - simpl. destruct (Z.ltb_spec total cl) as [Hlt|Hge];
      [|simpl; split_and!; [done|lia|intros _; lia]].
    destruct (recv sock (Z.to_nat (Z.min 4096 (cl - total)))) as [[buf|] sock'] eqn:Hrecv.
    + apply recv_data in Hrecv as (Hcat & Hlen & Hne); [|lia].
      destruct (IH sock' (total + Z.of_nat (String.length buf)) (body ++ buf)%string)
        as (I1 & I2 & I3); [by rewrite str_length_app; lia|lia|lia|].
      split_and!; [|done|].
      * rewrite I1, str_app_assoc. by rewrite Hcat.
      * intros Hall. rewrite (I3 (Hne Hall)), str_length_app.
        rewrite <- Hcat, str_length_app. lia.
    + apply recv_nothing in Hrecv as [Hcat Hnil]. simpl.
      split_and!; [by rewrite Hcat|lia|].
      intros Hall. rewrite (Hnil Hall). simpl. lia.
Qed.

(** [read_http_body] takes the bytes off the socket in order and never more
    than [content_length] of them: what it returns, followed by what is left
    on the socket, is what was there.  When the data comes in non-empty
    pieces it returns exactly [content_length] bytes, or everything when less
    than that arrives.  A negative length makes [body.reserve] throw. *)
Theorem read_http_body_takes_a_prefix (sock : Socket) (content_length : Z) :
  (content_length < 0 → read_http_body sock content_length = None) ∧
  (0 ≤ content_length →
   ∃ body sock', read_http_body sock content_length = Some (body, sock') ∧
     (body ++ concat_str sock')%string = concat_str sock ∧
     Z.of_nat (String.length body) ≤ content_length ∧
     (Forall (λ p, p ≠ EmptyString) sock →
      Z.of_nat (String.length body)
      = Z.min content_length (Z.of_nat (String.length (concat_str sock))))).
Proof.
  unfold read_http_body. split; intros H.
  - by destruct (Z.ltb_spec content_length 0); [|lia].
  - destruct (Z.ltb_spec content_length 0); [lia|].
    destruct (read_loop_spec (Z.to_nat content_length) sock content_length 0 EmptyString)
      as (H1 & H2 & H3); [done|lia|lia|].
    destruct (read_loop _ _ _ _ _) as [body sock'] eqn:Hr. simpl in *.
    exists body, sock'. split_and!; try done.
Qed.

Example read_http_body_pieces :
  read_http_body ["abc"; "defgh"; "ij"] 6 = Some ("abcdef", ["gh"; "ij"]) ∧
  read_http_body ["abc"; "de"] 9 = Some ("abcde", []) ∧
  read_http_body ["abc"] 0 = Some ("", ["abc"]) ∧
  read_http_body ["abc"] (-1) = None.
Proof. vm_compute. split_and!; reflexivity. Qed.

(** *** The two POST handlers *)

Section HandlerFacts.

Variable reader_parse : string → option Json.
Variable fast_write : Json → string.
Variable number_text : Json → string.

(** A move is published exactly when the body parses to an object that has
    both members with values jsoncpp converts to a double: a real, an
    integer, a boolean (1 or 0) or null (0).  Then exactly one Twist is
    published, with the converted values, and the reply echoes them; in
    every other case nothing is published. *)
Theorem move_published_iff_convertible (body : string) :
  let r := handle_move reader_parse body in
  (length r.2 ≤ 1)%nat ∧
  (r.2 ≠ [] ↔
     ∃ o vl va l a, reader_parse body = Some (JObject o) ∧
       o !! "linear" = Some vl ∧ o !! "angular" = Some va ∧
       asDouble vl = Some l ∧ asDouble va = Some a) ∧
  (∀ o vl va l a, reader_parse body = Some (JObject o) →
     o !! "linear" = Some vl → o !! "angular" = Some va →
     asDouble vl = Some l → asDouble va = Some a →
     r = (Some (ReplyJson (JObject (list_to_map
            [("status", JString "ok"); ("linear", JReal l); ("angular", JReal a)]))),
          [(CMD_VEL, mkTwist (mkVec3 l 0 0) (mkVec3 0 0 a))])).
Proof.
  intros r.
  assert (Hyes : ∀ o vl va l a, reader_parse body = Some (JObject o) →
     o !! "linear" = Some vl → o !! "angular" = Some va →
     asDouble vl = Some l → asDouble va = Some a →
     r = (Some (ReplyJson (JObject (list_to_map
            [("status", JString "ok"); ("linear", JReal l); ("angular", JReal a)]))),
          [(CMD_VEL, mkTwist (mkVec3 l 0 0) (mkVec3 0 0 a))])).
  { intros o vl va l a Hp Hl Ha Hdl Hda. unfold r, handle_move.
    rewrite Hp. simpl. rewrite Hl, Ha. simpl. rewrite Hdl, Hda. reflexivity. }
  split_and!; [| |exact Hyes].
  - unfold r, handle_move. destruct (reader_parse body) as [req|]; [|simpl; lia].
    destruct (isMember "linear" req) as [[]|]; try (simpl; lia).
    + destruct (isMember "angular" req) as [[]|]; try (simpl; lia).
      destruct (_ ≫= asDouble); [|simpl; lia].
      destruct (_ ≫= asDouble); simpl; lia.
  - split.
    + unfold r, handle_move. destruct (reader_parse body) as [req|]; [|done].
      destruct req as [| | | | | | |o]; try done. simpl.
      destruct (o !! "linear") as [vl|] eqn:Hl; [|done]. simpl.
      destruct (o !! "angular") as [va|] eqn:Ha; [|done]. simpl.
      destruct (asDouble vl) as [l|] eqn:Hdl; [|done].
      destruct (asDouble va) as [a|] eqn:Hda; [|done].
      intros _. by exists o, vl, va, l, a.
    + intros (o & vl & va & l & a & Hp & Hl & Ha & Hdl & Hda).
      by rewrite (Hyes o vl va l a).
Qed.

(** A navigation request is published exactly as received (the whole
    request, as the writer renders it), once, on /nav_cmd, when the body
    parses to an object whose "points" is an array; the points themselves
    and the algorithm are not checked: the answer echoes whatever string
    "algorithm" holds, and "dijkstra" when there is none.  Without a
    "points" array the answer is 400 and nothing is published. *)
Theorem nav_needs_only_a_points_array (body : string) :
  let r := handle_nav reader_parse fast_write number_text body in
  (∀ o pts alg, reader_parse body = Some (JObject o) →
     o !! "points" = Some (JArray pts) →
     asString number_text (default (JString "dijkstra") (o !! "algorithm")) = Some alg →
     r = (Some (ReplyJson (JObject (list_to_map
            [("status", JString "ok"); ("algorithm", JString alg)]))),
          [(NAV_CMD, fast_write (JObject o))])) ∧
  (∀ o, reader_parse body = Some (JObject o) →
     (∀ pts, o !! "points" ≠ Some (JArray pts)) →
     r = (Some (ReplyError 400 "Missing 'points' array"), [])) ∧
  (r.2 ≠ [] →
     ∃ o pts, reader_parse body = Some (JObject o) ∧ o !! "points" = Some (JArray pts)).
Proof.
  intros r. split_and!.
  - intros o pts alg Hp Hpts Halg. unfold r, handle_nav. rewrite Hp. simpl.
    rewrite Hpts. simpl. rewrite Halg. reflexivity.
  - intros o Hp Hno. unfold r, handle_nav. rewrite Hp. simpl.
    destruct (o !! "points") as [v|] eqn:Hv; [|done]. simpl.
    destruct v; try done. by destruct (Hno items).
  - unfold r, handle_nav. destruct (reader_parse body) as [req|]; [|done].
    destruct req as [| | | | | | |o]; try done. simpl.
    destruct (o !! "points") as [v|] eqn:Hv; [|done]. simpl.
    destruct v; try done. intros _. by exists o, items.
Qed.

End HandlerFacts.

(** Null and a boolean are taken as numbers; a string is not. *)
Example move_with_null_and_true :
  handle_move (λ _, Some (JObject (<[ "angular" := JBool true ]> {[ "linear" := JNull ]}))) ""
  = (Some (ReplyJson (JObject (list_to_map
       [("status", JString "ok"); ("linear", JReal 0); ("angular", JReal 1)]))),
     [(CMD_VEL, mkTwist (mkVec3 0 0 0) (mkVec3 0 0 1))]) ∧
  handle_move (λ _, Some (JObject (<[ "angular" := JReal 0 ]> {[ "linear" := JString "fast" ]}))) ""
  = (None, []).
Proof. split; reflexivity. Qed.

(** *** The cache as a data structure *)

(** Updates of different channels do not disturb each other (their order
    does not matter); of two updates of the same channel the later one
    decides; repeating an update changes nothing. *)
Theorem updates_independent_last_wins (u1 u2 : Update) (g : RobotStatus) :
  (update_channel u1 ≠ update_channel u2 →
   apply_update u1 (apply_update u2 g) = apply_update u2 (apply_update u1 g)) ∧
  (update_channel u1 = update_channel u2 →
   apply_update u2 (apply_update u1 g) = apply_update u2 g) ∧
  apply_update u1 (apply_update u1 g) = apply_update u1 g.
Proof. destruct u1, u2; split_and!; done. Qed.

(** The status document, member by member. *)
Lemma handle_status_all_members (g : RobotStatus) :
  ∃ m, handle_status g = Some (JObject m) ∧
       (∀ c, m !! channel_key c = channel_view c g) ∧
       (∀ k, (∀ c, k ≠ channel_key c) → m !! k = None).
Proof.
  unfold handle_status, guarded_channels. simpl concat.
  rewrite !apply_all_app.
  set (m0 := ({[ "battery" := if battery_ready g then JReal (battery g) else JNull ]}
                : gmap string Json)).
  change (apply_all (battery_stmt g) (Some JNull)) with (Some (JObject m0)).
  assert (H0 : m0 !! "battery" = channel_view Battery g).
  { unfold m0, channel_view. rewrite lookup_singleton_eq. simpl.
    by destruct (battery_ready g). }
  assert (H0' : ∀ k, k ≠ "battery" → m0 !! k = None).
  { intros k Hk. unfold m0. by rewrite lookup_singleton_ne. }
  destruct (run_guarded_block OdometryCh g m0) as (m1 & E1 & H1 & H1');
    [done|by apply H0'|].
  destruct (run_guarded_block ImuCh g m1) as (m2 & E2 & H2 & H2');
    [done|rewrite H1' by done; by apply H0'|].
  destruct (run_guarded_block LidarCh g m2) as (m3 & E3 & H3 & H3');
    [done|rewrite H2', H1' by done; by apply H0'|].
  destruct (run_guarded_block CameraCh g m3) as (m4 & E4 & H4 & H4');
    [done|rewrite H3', H2', H1' by done; by apply H0'|].
  simpl in E1, E2, E3, E4. rewrite E1, E2, E3, E4. simpl apply_all.
  exists m4. split; [done|]. split.
  - intros c. destruct c; simpl channel_key.
    + rewrite H4', H3', H2', H1' by done. done.
    + rewrite H4', H3', H2' by done. done.
    + rewrite H4', H3' by done. done.
    + rewrite H4' by done. done.
    + done.
  - intros k Hk.
    rewrite H4', H3', H2', H1'; [|exact (Hk OdometryCh)|exact (Hk ImuCh)
                                  |exact (Hk LidarCh)|exact (Hk CameraCh)].
    apply H0'. exact (Hk Battery).
Qed.

Lemma channel_key_cases (k : string) :
  (∃ c, k = channel_key c) ∨ (∀ c, k ≠ channel_key c).
Proof.
  destruct (decide (k = "battery")) as [->|?]; [left; by exists Battery|].
  destruct (decide (k = "odometry")) as [->|?]; [left; by exists OdometryCh|].
  destruct (decide (k = "imu")) as [->|?]; [left; by exists ImuCh|].
  destruct (decide (k = "lidar")) as [->|?]; [left; by exists LidarCh|].
  destruct (decide (k = "camera")) as [->|?]; [left; by exists CameraCh|].
  right. by intros [].
Qed.

(** A status request never fails and its document has no member besides
    battery, odometry, imu, lidar and camera; battery is always there.  The
    document depends on the cache only through what it shows of each
    channel: stale values of channels that are not ready do not leak into
    it. *)
Theorem status_document_shape (g : RobotStatus) :
  ∃ m, handle_status g = Some (JObject m) ∧
       is_Some (m !! "battery") ∧
       (∀ k, is_Some (m !! k) → ∃ c, k = channel_key c) ∧
       (∀ g', (∀ c, channel_view c g' = channel_view c g) →
              handle_status g' = handle_status g).
Proof.
  destruct (handle_status_all_members g) as (m & Hm & Hkeys & Hother).
  exists m. split; [done|]. split_and!.
  - pose proof (Hkeys Battery) as Hb. unfold channel_view in Hb. simpl in Hb.
    rewrite Hb. by destruct (battery_ready g).
  - intros k Hk. destruct (channel_key_cases k) as [?|Hno]; [done|].
    rewrite (Hother k Hno) in Hk. by destruct Hk.
  - intros g' Hviews.
    destruct (handle_status_all_members g') as (m' & Hm' & Hkeys' & Hother').
    rewrite Hm, Hm'. do 2 f_equal. apply map_eq. intros k.
    destruct (channel_key_cases k) as [[c ->]|Hno].
    + by rewrite Hkeys, Hkeys', Hviews.
    + by rewrite Hother, Hother'.
Qed.

(** A scan without ranges: the lidar node of the status document has no
    "ranges" member at all (not an empty array); with ranges it lists them in
    order.  The scalar members are there either way. *)
Theorem lidar_node_of_empty_scan (g : RobotStatus) :
  lidar_ready g = true →
  ∃ m node, handle_status g = Some (JObject m) ∧
    m !! "lidar" = Some (JObject node) ∧
    node !! "ranges" = match ranges (lidar g) with
                       | [] => None
                       | rs => Some (JArray (map JReal rs))
                       end ∧
    node !! "angle_min" = Some (JReal (angle_min (lidar g))) ∧
    node !! "range_max" = Some (JReal (range_max (lidar g))).
Proof.
  intros Hr. destruct (handle_status_all_members g) as (m & Hm & Hkeys & _).
  specialize (Hkeys LidarCh). unfold channel_view in Hkeys.
  change (ready LidarCh g) with (lidar_ready g) in Hkeys.
  change (channel_key LidarCh) with "lidar" in Hkeys.
  rewrite Hr, channel_doc_lidar in Hkeys.
  eexists m, _. split; [done|]. split; [exact Hkeys|].
  destruct (ranges (lidar g)); split_and!; reflexivity.
Qed.

(** A scan that carries no range at all, delivered to a fresh cache. *)
Lemma lidar_node_of_empty_scan_witness :
  let g := lidar_cb (mkLaserScan [] 0 1 0.5 0 0.25 0.125 8) initial_status in
  lidar_ready g = true ∧
  ∃ m node, handle_status g = Some (JObject m) ∧
    m !! "lidar" = Some (JObject node) ∧
    node !! "ranges" = None ∧
    node !! "range_max" = Some (JReal 8).
Proof.
  intros g. split; [reflexivity|].
  destruct (lidar_node_of_empty_scan g eq_refl) as (m & node & Hm & Hl & Hr & _ & Hx).
  exists m, node. split; [exact Hm|]. split; [exact Hl|]. split; [exact Hr|exact Hx].
Defined.

(** *** The lock, seen from the cache *)

Lemma start_waiting (us : list Update) :
  Forall (λ t : Thread RobotStatus Local, th_pc t = Waiting) (start us).
Proof.
  unfold start. apply Forall_app. split; [|by apply Forall_singleton].
  by apply Forall_fmap, Forall_true.
Qed.

Lemma start_local (us : list Update) (i : nat) (t0 : Thread RobotStatus Local) :
  start us !! i = Some t0 → th_loc t0 = local0.
Proof.
  unfold start. intros [Hi|[_ Hi]]%lookup_app_Some.
  - rewrite list_lookup_fmap in Hi. destruct (us !! i); [|done]. by injection Hi as <-.
  - by apply list_elem_of_lookup_2, list_elem_of_singleton in Hi as ->.
Qed.

Lemma start_length (us : list Update) : length (start us) = S (length us).
Proof. unfold start. rewrite length_app, length_map. simpl. lia. Qed.

(** Critical sections run one after the other: the updates of the callbacks
    among them, in that order. *)
Lemma serial_start_updates (us : list Update) (order : list nat) (g0 : RobotStatus) :
  serial (start us) g0 order = apply_updates (omap (λ i, us !! i) order) g0.
Proof.
  induction order as [|i order IH] using rev_ind; [done|].
  rewrite omap_app. unfold apply_updates. rewrite foldl_app.
  fold (apply_updates (omap (λ i, us !! i) order) g0). rewrite <- IH.
  destruct (start us !! i) as [t|] eqn:Hi.
  - rewrite (serial_snoc _ _ _ _ _ Hi).
    unfold start in Hi. apply lookup_app_Some in Hi as [Hi|[Hge Hi]].
    + rewrite list_lookup_fmap in Hi.
      destruct (us !! i) as [u|] eqn:Hu; [|done]. injection Hi as <-.
      unfold update_thread, spawn. cbn [th_body th_loc].
      rewrite run_cs_update. simpl. by rewrite Hu.
    + apply list_elem_of_lookup_2, list_elem_of_singleton in Hi as ->.
      unfold status_thread, spawn. cbn [th_body th_loc].
      rewrite run_cs_snap. rewrite length_map in Hge. simpl.
      by rewrite (lookup_ge_None_2 us i).
  - rewrite serial_snoc_none by done.
    apply lookup_ge_None_1 in Hi. rewrite start_length in Hi.
    simpl. rewrite (lookup_ge_None_2 us i) by lia. done.
Qed.

Lemma omap_filter_defined {A} (f : nat → option A) (n : nat) (l : list nat) :
  (∀ i, (n ≤ i)%nat → f i = None) →
  omap f (filter (λ i, (i < n)%nat) l) = omap f l.
Proof.
  intros Hf. induction l as [|i l IH]; [done|].
  rewrite filter_cons. destruct (decide (i < n)%nat) as [Hi|Hi]; simpl.
  - destruct (f i); [f_equal|]; exact IH.
  - rewrite Hf by lia. exact IH.
Qed.

Lemma omap_lookup_snoc {A} (us : list A) (u : A) (l : list nat) :
  length us ∉ l →
  omap (λ i, (us ++ [u]) !! i) l = omap (λ i, us !! i) l.
Proof.
  induction l as [|i l IH]; [done|]. intros Hn.
  apply not_elem_of_cons in Hn as [Hne Hn]. specialize (IH Hn). simpl.
  assert (Hi : (us ++ [u]) !! i = us !! i).
  { destruct (decide (i < length us)%nat) as [Hlt|Hge].
    - by rewrite lookup_app_l by done.
    - rewrite (lookup_ge_None_2 (us ++ [u]) i) by (rewrite length_app; simpl; lia).
      by rewrite (lookup_ge_None_2 us i) by lia. }
  rewrite Hi. destruct (us !! i); [f_equal|]; exact IH.
Qed.

(** Every index once: every element once. *)
Lemma omap_lookup_permutation {A} (us : list A) (order : list nat) :
  NoDup order → (∀ i, (i < length us)%nat → i ∈ order) →
  omap (λ i, us !! i) order ≡ₚ us.
Proof.
  revert order. induction us as [|u us IH] using rev_ind; intros order Hnd Hall.
  - clear. induction order as [|i order IH]; [done|]. simpl. exact IH.
  - assert (Hin : length us ∈ order) by (apply Hall; rewrite length_app; simpl; lia).
    apply list_elem_of_split in Hin as (l1 & l2 & ->).
    apply NoDup_app in Hnd as (Hnd1 & Hdis & [Hn2 Hnd2]%NoDup_cons).
    assert (Hn1 : length us ∉ l1).
    { intros Hin. apply (Hdis _ Hin). by left. }
    rewrite omap_app. simpl.
    rewrite lookup_app_r by done. rewrite Nat.sub_diag. simpl.
    rewrite !omap_lookup_snoc by done.
    rewrite <- Permutation_middle, <- omap_app, <- Permutation_cons_append.
    constructor. apply IH.
    + apply NoDup_app. split_and!; [done| |done].
      intros x Hx1 Hx2. apply (Hdis x Hx1). by right.
    + intros i Hi.
      assert (Hin : i ∈ l1 ++ length us :: l2)
        by (apply Hall; rewrite length_app; simpl; lia).
      apply elem_of_app in Hin as [H1|H2]; [apply elem_of_app; by left|].
      apply elem_of_cons in H2 as [->|H2]; [lia|apply elem_of_app; by right].
Qed.

(** While a thread is inside its critical section it holds the mutex and no
    other thread is inside one; the cache is what the statements of that
    section executed so far have made of the cache left by whole updates of
    callbacks that have returned. *)
Theorem one_thread_inside_at_a_time (g0 : RobotStatus) (us : list Update)
    (sched : list nat) (i : nat) (ti : Thread RobotStatus Local)
    (ri : list (Step RobotStatus Local)) :
  let c := run_schedule sched (initial_config (start us) g0) in
  threads c !! i = Some ti → th_pc ti = Inside ri →
  holder c = Some i ∧
  (∀ j tj rj, threads c !! j = Some tj → th_pc tj = Inside rj → j = i) ∧
  ∃ order executed, NoDup order ∧ th_body ti = executed ++ ri ∧
    run_cs executed (apply_updates (omap (λ k, us !! k) order) g0, local0)
    = (shared c, th_loc ti).
Proof.
  intros c Hi Hpc.
  destruct (inv_run (start us) g0 sched [] (initial_config (start us) g0)
              (inv_init (start us) g0 (start_waiting us))) as [order Hinv].
  simpl in Hinv. fold c in Hinv. destruct Hinv as (Hnd & Hlen & Hth & _ & _).
  assert (Hinside : ∀ j tj rj, threads c !! j = Some tj → th_pc tj = Inside rj →
            ∃ t0, start us !! j = Some t0 ∧ thread_inv (start us) g0 order c j t0 tj).
  { intros j tj rj Hj Hpj.
    destruct (lookup_lt_is_Some_2 (start us) j) as [t0 Ht0].
    { rewrite <- Hlen. by eapply lookup_lt_Some. }
    destruct (Hth j t0 Ht0) as (t' & Hj' & Hinv').
    exists t0. split; [done|]. congruence. }
  destruct (Hinside i ti ri Hi Hpc) as (t0 & Ht0 & Hbody & Hpci).
  rewrite Hpc in Hpci. destruct Hpci as (Hh & _ & pre & Hpre & Hrun).
  split_and!; [done| |].
  - intros j tj rj Hj Hpj.
    destruct (Hinside j tj rj Hj Hpj) as (tj0 & _ & _ & Hpcj).
    rewrite Hpj in Hpcj. destruct Hpcj as (Hhj & _). congruence.
  - exists order, pre. split_and!; [done|congruence|].
    by rewrite <- serial_start_updates, <- (start_local us i t0 Ht0).
Qed.

(** No update is lost and none is applied twice: whenever the mutex is
    free, the cache is the initial one with the updates of exactly the
    callbacks that have returned, each applied once and as a whole, in the
    order in which they took the mutex.  Once every thread has returned,
    these are all the delivered updates. *)
Theorem no_update_lost (g0 : RobotStatus) (us : list Update) (sched : list nat) :
  let c := run_schedule sched (initial_config (start us) g0) in
  holder c = None →
  ∃ order, NoDup order ∧
    (∀ i, i ∈ order ↔ ∃ t, threads c !! i = Some t ∧ th_pc t = Finished) ∧
    shared c = apply_updates (omap (λ i, us !! i) order) g0 ∧
    (forallb finished (threads c) = true → omap (λ i, us !! i) order ≡ₚ us).
Proof.
  intros c Hfree.
  destruct (inv_run (start us) g0 sched [] (initial_config (start us) g0)
              (inv_init (start us) g0 (start_waiting us))) as [order Hinv].
  simpl in Hinv. fold c in Hinv. destruct Hinv as (Hnd & Hlen & Hth & Hsh & _).
  set (n := length (start us)).
  assert (Hiff : ∀ i, i ∈ filter (λ i, (i < n)%nat) order
                      ↔ ∃ t, threads c !! i = Some t ∧ th_pc t = Finished).
  { intros i. rewrite list_elem_of_filter. split.
    - intros [Hi Hin]. destruct (lookup_lt_is_Some_2 (start us) i Hi) as [t0 Ht0].
      destruct (Hth i t0 Ht0) as (t & Ht & _ & Hpc). exists t. split; [done|].
      destruct (th_pc t); [by destruct Hpc|by destruct Hpc as (_ & ? & _)|done].
    - intros (t & Ht & Hpc).
      assert (Hi : (i < n)%nat) by (unfold n; rewrite <- Hlen; by eapply lookup_lt_Some).
      split; [done|].
      destruct (lookup_lt_is_Some_2 (start us) i Hi) as [t0 Ht0].
      destruct (Hth i t0 Ht0) as (t' & Ht' & _ & Hpc').
      assert (t' = t) as -> by congruence. rewrite Hpc in Hpc'.
      destruct Hpc' as (b & a & -> & _). apply elem_of_app. right. by left. }
  assert (Hsame : omap (λ i, us !! i) (filter (λ i, (i < n)%nat) order)
                  = omap (λ i, us !! i) order).
  { apply omap_filter_defined. intros i Hi. apply lookup_ge_None_2.
    unfold n in Hi. rewrite start_length in Hi. lia. }
  exists (filter (λ i, (i < n)%nat) order). split_and!.
  - by apply NoDup_filter.
  - exact Hiff.
  - rewrite Hsame, <- serial_start_updates. by apply Hsh.
  - intros Hall. apply omap_lookup_permutation; [by apply NoDup_filter|].
    intros i Hi. apply Hiff.
    destruct (lookup_lt_is_Some_2 (threads c) i) as [t Ht].
    { rewrite Hlen, start_length. lia. }
    exists t. split; [done|].
    assert (Hf : finished t = true).
    { apply (proj1 (forallb_forall _ _) Hall).
      apply list_elem_of_In. by eapply list_elem_of_lookup_2. }
    unfold finished in Hf. by destruct (th_pc t).
Qed.

(** The battery callback stopped after its first write: it holds the mutex,
    the status request and the camera callback wait. *)
Lemma one_thread_inside_at_a_time_witness :
  let c := run_schedule [0; 0; 2; 1]%nat (initial_config (start demo_updates) initial_status) in
  ∃ ti ri, threads c !! 0%nat = Some ti ∧ th_pc ti = Inside ri ∧
    holder c = Some 0%nat ∧
    (∀ j tj rj, threads c !! j = Some tj → th_pc tj = Inside rj → j = 0%nat).
Proof.
  intros c.
  assert (H : (λ t, match th_pc t with Inside r => Some (length r) | _ => None end)
                <$> threads c !! 0%nat = Some (Some 1%nat))
    by (vm_compute; reflexivity).
  destruct (threads c !! 0%nat) as [t|] eqn:Ht; [|discriminate H].
  injection H as H.
  destruct (th_pc t) as [|r|] eqn:Hpc; [discriminate H| |discriminate H].
  exists t, r. split; [reflexivity|]. split; [exact Hpc|].
  destruct (one_thread_inside_at_a_time initial_status demo_updates [0; 0; 2; 1]%nat
              0%nat t r Ht Hpc) as (Hh & Hex & _).
  split; [exact Hh|exact Hex].
Defined.

(** At the end of the race of [demo_schedule] all three threads have
    returned and both updates are in the cache. *)
Lemma no_update_lost_witness :
  let c := run_schedule demo_schedule (initial_config (start demo_updates) initial_status) in
  holder c = None ∧ forallb finished (threads c) = true ∧
  ∃ order, NoDup order ∧
    shared c = apply_updates (omap (λ i, demo_updates !! i) order) initial_status ∧
    omap (λ i, demo_updates !! i) order ≡ₚ demo_updates.
Proof.
  intros c.
  assert (Hh : holder c = None) by (vm_compute; reflexivity).
  assert (Hf : forallb finished (threads c) = true) by (vm_compute; reflexivity).
  split; [exact Hh|]. split; [exact Hf|].
  destruct (no_update_lost initial_status demo_updates demo_schedule Hh)
    as (order & Hnd & _ & Hs & Hp).
  exists order. split; [exact Hnd|]. split; [exact Hs|exact (Hp Hf)].
Defined.

End RosRobot.
